(** * The Tesserae tokenizer ([tesserae/tokenizers/base.py])

    A shallow embedding of [BaseTokenizer]: the normalizer, the two regular
    expression splitters, the alignment loop of [tokenize] and the session
    state it records into, followed by the properties of the specification.

    Python values are modelled as follows.
    - [str] is a list of Unicode code points ([N]); [len] is [length].
    - [int] is [Z] for counts held in a [collections.Counter] and [nat] for
      list positions and lengths, which are never negative.
    - [dict] and [Counter] are [gmap]s, except [frequency_list], whose
      insertion order is returned to the caller and which is therefore an
      association list.
    - An exception is a value [PyExc cls]; a computation that may raise and
      that reads or writes [self] lives in the monad [M].
    - Objects whose identity the specification talks about ([FeatureSet],
      [Frequency]) carry an object identifier allocated from a counter. *)

From Stdlib Require Import String Ascii NArith ZArith List Lia.
From Equations Require Import Equations.
From stdpp Require Import base option list gmap.

Local Open Scope N_scope.
Local Open Scope Z_scope.
Local Open Scope nat_scope.
Local Open Scope list_scope.

(** ** Python strings *)

Abbreviation str := (list N).

(** [py "abc"] is the Python literal ['abc'] (ASCII source text only). *)
Definition py (s : string) : str :=
  List.map N_of_ascii (list_ascii_of_string s).

(** Truthiness of a string: [if n] holds for the non-empty ones. *)
Definition truthy (s : str) : bool :=
  match s with [] => false | _ :: _ => true end.

(** [sep.join(l)] *)
Fixpoint join (sep : str) (l : list str) : str :=
  match l with
  | [] => []
  | [s] => s
  | s :: l' => s ++ sep ++ join sep l'
  end.

(** [s[b:e]] for non-negative [b] and [e]. *)
Definition slice {A} (s : list A) (b e : nat) : list A :=
  take (e - b) (drop b s).

(** ** Exceptions *)

Inductive exn := PyExc (cls : string).

Definition IndexError := PyExc "IndexError".
Definition AttributeError := PyExc "AttributeError".
Definition TypeError := PyExc "TypeError".
Definition NotImplementedError := PyExc "NotImplementedError".

Inductive result (A : Type) :=
| Ok (a : A)
| Raise (e : exn).
Arguments Ok {A} a.
Arguments Raise {A} e.

(** ** The character tables of the Python runtime

    [unicodedata.normalize], [str.lower] and the classes [\w] and [\s] of
    [re] are driven by the Unicode character database of the interpreter,
    which is not part of the repository.  The tokenizer is parametric in
    them. *)

Class UnicodeData := {
  nfkd : str -> str;       (* unicodedata.normalize('NFKD', s) *)
  lower : str -> str;      (* s.lower() *)
  isalnum : N -> bool;     (* alphanumeric code points, behind \w *)
  isspace : N -> bool      (* whitespace code points, behind \s *)
}.

(** What the Unicode standard and CPython guarantee about the tables and
    [normalize] relies on: normalization forms are stable, lowercasing is
    stable, and lowercasing a decomposed string leaves it decomposed. *)
Class UnicodeLaws (U : UnicodeData) : Prop := {
  nfkd_idem : forall s, nfkd (nfkd s) = nfkd s;
  lower_idem : forall s, lower (lower s) = lower s;
  lower_nfkd : forall s, nfkd s = s -> nfkd (lower s) = lower s
}.

(** The tables restricted to ASCII, where they are small enough to write
    down: NFKD leaves ASCII text alone and [lower] maps [A-Z] to [a-z].
    Code points from 128 on are treated as caseless symbols. *)
Definition ascii_lower_char (c : N) : N :=
  if ((65 <=? c) && (c <=? 90))%N then (c + 32)%N else c.

Definition ascii_isalnum (c : N) : bool :=
  ((48 <=? c) && (c <=? 57) || (65 <=? c) && (c <=? 90)
   || (97 <=? c) && (c <=? 122))%N.

Definition ascii_isspace (c : N) : bool :=
  ((9 <=? c) && (c <=? 13) || (28 <=? c) && (c <=? 32))%N.

Definition ascii_tables : UnicodeData := {|
  nfkd := fun s => s;
  lower := List.map ascii_lower_char;
  isalnum := ascii_isalnum;
  isspace := ascii_isspace
|}.

(** ** Regular expressions

    The fragment of [re] the tokenizer uses: character classes, literals,
    concatenation, ordered alternation and a greedy [+] over a class. *)

Module Re.

Inductive regex :=
| Eps
| Cls (p : N -> bool)
| Plus (p : N -> bool)
| Cat (r1 r2 : regex)
| Alt (r1 r2 : regex).

(** A literal string. *)
Fixpoint lit (l : str) : regex :=
  match l with
  | [] => Eps
  | c :: l' => Cat (Cls (N.eqb c)) (lit l')
  end.

(** Greedy [p+] in continuation-passing style: take as many characters
    as possible and give one back each time the rest of the pattern
    fails. *)
Fixpoint plus_k {A} (p : N -> bool) (s : str) (k : str -> option A)
  : option A :=
  match s with
  | [] => None
  | c :: s' =>
      if p c then
        match plus_k p s' k with
        | Some a => Some a
        | None => k s'
        end
      else None
  end.

(** The backtracking matcher anchored at the head of [s]; [k] is the
    rest of the pattern.  Alternatives are tried left to right. *)
Fixpoint run {A} (r : regex) (s : str) (k : str -> option A) : option A :=
  match r with
  | Eps => k s
  | Cls p =>
      match s with
      | c :: s' => if p c then k s' else None
      | [] => None
      end
  | Plus p => plus_k p s k
  | Cat r1 r2 => run r1 s (fun s' => run r2 s' k)
  | Alt r1 r2 =>
      match run r1 s k with
      | Some a => Some a
      | None => run r2 s k
      end
  end.

(** Length of the match of [r] at the head of [s], if there is one. *)
Definition match_len (r : regex) (s : str) : option nat :=
  run r s (fun rest => Some (length s - length rest)).

(** [re.search(r, s)] as a truth value. *)
Fixpoint search (r : regex) (s : str) : bool :=
  match match_len r s with
  | Some _ => true
  | None =>
      match s with
      | [] => false
      | _ :: s' => search r s'
      end
  end.

(** The scanners below walk the subject once.  [skip] counts the
    characters of the current match that are still to be passed over.
    The patterns of the tokenizer never match the empty string (see
    [match_len_pos]), so an empty match is treated as no match. *)

(** [re.split(r, s)] for a pattern without groups. *)
Fixpoint split_from (r : regex) (s : str) (skip : nat) (piece : str)
  : list str :=
  match s with
  | [] => [piece]
  | c :: s' =>
      match skip with
      | S n => split_from r s' n piece
      | O =>
          match match_len r s with
          | Some (S n) => piece :: split_from r s' n []
          | _ => split_from r s' 0 (piece ++ [c])
          end
      end
  end.

Definition split (r : regex) (s : str) : list str := split_from r s 0 [].

(** [re.sub(r, repl, s)] for a replacement without group references. *)
Fixpoint sub_from (r : regex) (repl s : str) (skip : nat) : str :=
  match s with
  | [] => []
  | c :: s' =>
      match skip with
      | S n => sub_from r repl s' n
      | O =>
          match match_len r s with
          | Some (S n) => repl ++ sub_from r repl s' n
          | _ => c :: sub_from r repl s' 0
          end
      end
  end.

Definition sub (r : regex) (repl s : str) : str := sub_from r repl s 0.

(** A pattern [(r1)|(r2)|...] whose alternatives are each one capturing
    group: the first alternative that matches, as the index of its group
    and the length of the match. *)
Fixpoint first_group (alts : list regex) (s : str) : option (nat * nat) :=
  match alts with
  | [] => None
  | r :: alts' =>
      match match_len r s with
      | Some n => Some (O, n)
      | None =>
          match first_group alts' s with
          | Some (g, n) => Some (S g, n)
          | None => None
          end
      end
  end.

(** The groups reported for one match: the text for the group that took
    part, [None] for the others. *)
Definition groups (count g : nat) (m : str) : list (option str) :=
  List.map (fun j => if Nat.eqb j g then Some m else None) (seq 0 count).

(** [re.split] for such a pattern: the pieces and, after each piece, the
    groups of the match that ended it. *)
Fixpoint split_groups_from (alts : list regex) (s : str) (skip : nat)
    (piece : str) : list (option str) :=
  match s with
  | [] => [Some piece]
  | c :: s' =>
      match skip with
      | S n => split_groups_from alts s' n piece
      | O =>
          match first_group alts s with
          | Some (g, S n) =>
              Some piece :: groups (length alts) g (take (S n) s)
                ++ split_groups_from alts s' n []
          | _ => split_groups_from alts s' 0 (piece ++ [c])
          end
      end
  end.

Definition split_groups (alts : list regex) (s : str) : list (option str) :=
  split_groups_from alts s 0 [].

(** Patterns that cannot match the empty string. *)
Fixpoint consuming (r : regex) : bool :=
  match r with
  | Eps => false
  | Cls _ | Plus _ => true
  | Cat r1 r2 => consuming r1 || consuming r2
  | Alt r1 r2 => consuming r1 && consuming r2
  end.

End Re.

(** ** The normalizer and the splitter *)

(** The argument [raw] of [normalize] and [tokenize]: a string or a list
    of strings. *)
Inductive raw_text :=
| RawStr (s : str)
| RawList (l : list str).

Section Splitter.
Context {U : UnicodeData}.

(** [BaseTokenizer.normalize] *)
Definition normalize (raw : raw_text) : str :=
  let raw :=
    match raw with
    | RawList l => join (py " ") l
    | RawStr s => s
    end in
  lower (nfkd raw).

(** [self.word_characters = 'a-zA-Z'] *)
Definition word_characters (c : N) : bool :=
  ((97 <=? c) && (c <=? 122) || (65 <=? c) && (c <=? 90))%N.

(** [self.diacriticals] *)
Definition diacriticals : str :=
  [0x0313; 0x0314; 0x0301; 0x0342; 0x0300; 0x0301; 0x0308; 0x0345]%N.

Definition member (c : N) (l : str) : bool := existsb (N.eqb c) l.

(** [\w] and [.] under [re.UNICODE] *)
Definition word_class (c : N) : bool := isalnum c || N.eqb c 95.
Definition dot (c : N) : bool := negb (N.eqb c 10).

(** The pattern [<.+>\s], written [[<].+[>][\s]] in [split_pattern]. *)
Definition annotation : Re.regex :=
  Re.Cat (Re.Cls (N.eqb 60))
    (Re.Cat (Re.Plus dot) (Re.Cat (Re.Cls (N.eqb 62)) (Re.Cls isspace))).

(** [self.split_pattern] *)
Definition split_pattern : Re.regex :=
  Re.Alt annotation
    (Re.Alt (Re.lit (py " / "))
       (Re.Alt (Re.lit (py " . . ."))
          (Re.Alt (Re.lit (py ".~.~."))
             (Re.Cls (fun c => negb (word_class c || member c diacriticals)))))).

(** The two groups of ['( / )|([^' + self.word_characters + '])']. *)
Definition display_pattern : list Re.regex :=
  [Re.lit (py " / "); Re.Cls (fun c => negb (word_characters c))].

(** Lines 113 to 115: the normalized stream. *)
Definition normalized_stream (raw : raw_text) : list str :=
  let normalized := normalize raw in
  let normalized := Re.split split_pattern normalized in
  List.filter truthy normalized.

(** [[t for t in ... if t]] over the result of a split with groups:
    [None] and the empty string are dropped. *)
Definition truthy_items (l : list (option str)) : list str :=
  omap (fun t => match t with
                 | Some (c :: s) => Some (c :: s)
                 | _ => None
                 end) l.

(** Lines 116 to 118: the display stream of a string. *)
Definition display_stream (raw : str) : list str :=
  let raw := Re.sub annotation [] raw in
  let raw := Re.sub (Re.Cls (N.eqb 10)) (py " / ") raw in
  truthy_items (Re.split_groups display_pattern raw).

(** Line 149: [re.search('[' + self.word_characters + ']', d)]. *)
Definition word_bearing (d : str) : bool :=
  Re.search (Re.Cls word_characters) d.

End Splitter.

(** ** The data model *)

(** A Python object whose identity matters: its identifier and its
    contents.  Two references denote the same object exactly when the
    identifiers agree; none of the objects below is mutated after it has
    been built. *)
Record obj (A : Type) := Obj { oid : nat; val : A }.
Arguments Obj {A} oid val.
Arguments oid {A} o.
Arguments val {A} o.

(** The feature bundle [f] of one normalized token, passed on as [**f]. *)
Definition FeatureBundle := list (string * str).

(** Modelled from the spec: the entity class [Text] of [tesserae.db] is not
    among the sources; the fields are those [insert_text] passes to its
    constructor, of which the tokenizer reads [language]. *)
Record Text := {
  text_cts_urn : str;
  text_language : option str;
  text_author : str;
  text_title : str;
  text_year : Z;
  text_path : str;
  text_hash : str
}.

(** Modelled from the spec: the entity class [FeatureSet] of [tesserae.db]
    is not among the sources; it holds the normalized form, the language
    and the open mapping of features. *)
Record FeatureSet := {
  fs_form : str;
  fs_language : option str;
  fs_features : FeatureBundle
}.

(** Modelled from the spec: the entity class [Frequency] of [tesserae.db]
    is not among the sources; it holds the text reference, the feature-set
    reference and the count. *)
Record Frequency := {
  freq_text : option Text;
  freq_feature_set : obj FeatureSet;
  freq_frequency : Z
}.

(** Modelled from the spec: the entity class [Token] of [tesserae.db] is
    not among the sources; it holds the text reference, the index, the
    display string and the two nullable references. *)
Record Token := {
  tok_text : option Text;
  tok_index : nat;
  tok_display : str;
  tok_feature_set : option (obj FeatureSet);
  tok_frequency : option (obj Frequency)
}.

(** The attributes of a tokenizer instance that [clear] resets:
    [self.tokens], [self.frequencies] and [self.feature_sets]. *)
Record Session := {
  self_tokens : list Token;
  self_frequencies : gmap str Z;
  self_feature_sets : gmap str (obj FeatureSet)
}.

(** The interpreter state a call runs in: the instance and the allocator
    of object identifiers. *)
Record Runtime := {
  self : Session;
  next_oid : nat
}.

(** ** The monad of effects *)

Definition M (A : Type) : Type := Runtime -> result A * Runtime.

#[global] Instance M_ret : MRet M := fun A a rt => (Ok a, rt).

#[global] Instance M_bind : MBind M := fun A B k c rt =>
  match c rt with
  | (Ok a, rt') => k a rt'
  | (Raise e, rt') => (Raise e, rt')
  end.

Definition raise {A} (e : exn) : M A := fun rt => (Raise e, rt).

Definition lift {A} (r : result A) : M A := fun rt => (r, rt).

Definition get_self : M Session := fun rt => (Ok (self rt), rt).

Definition put_self (s : Session) : M unit := fun rt =>
  (Ok tt, {| self := s; next_oid := next_oid rt |}).

(** Building an object gives it the next free identifier. *)
Definition new {A} (v : A) : M (obj A) := fun rt =>
  (Ok (Obj (next_oid rt) v),
   {| self := self rt; next_oid := S (next_oid rt) |}).

(** [try: c except cls: h] *)
Definition try_except {A} (c : M A) (cls : string) (h : M A) : M A :=
  fun rt =>
    match c rt with
    | (Raise (PyExc cls'), rt') =>
        if String.eqb cls' cls then h rt' else (Raise (PyExc cls'), rt')
    | r => r
    end.

(** [l[i]] for a non-negative [i] *)
Definition index {A} (l : list A) (i : nat) : M A :=
  match l !! i with
  | Some x => mret x
  | None => raise IndexError
  end.

(** [text.language]: [None] has no such attribute. *)
Definition attr_language (text : option Text) : M (option str) :=
  match text with
  | Some t => mret (text_language t)
  | None => raise AttributeError
  end.

(** ** Counters and insertion-ordered dictionaries *)

(** [collections.Counter(l)] *)
Definition Counter (l : list str) : gmap str Z :=
  foldl (fun c n => <[n := (default 0 (c !! n) + 1)%Z]> c) ∅ l.

(** [c[n]]: a missing key counts as zero. *)
Definition count_of (c : gmap str Z) (n : str) : Z := default 0%Z (c !! n).

(** [c.update(d)] for two counters: counts are added. *)
Definition counter_update (c d : gmap str Z) : gmap str Z :=
  union_with (fun x y => Some (x + y)%Z) c d.

(** [n in d] and [d[n]] for a dictionary kept in insertion order. *)
Fixpoint assoc {V} (n : str) (d : list (str * V)) : option V :=
  match d with
  | [] => None
  | (k, v) :: d' => if decide (k = n) then Some v else assoc n d'
  end.

(** ** The collaborators *)

(** [self.featurize], which every language supplies by subclassing. *)
Class Featurizer := {
  featurize : list str -> result (list FeatureBundle)
}.

(** [BaseTokenizer.featurize] itself. *)
Definition base_featurizer : Featurizer :=
  {| featurize := fun _ => Raise NotImplementedError |}.

(** [self.connection]: [find(collection, language=...)] answers with the
    stored entities, or raises. *)
Class Connection := {
  find : string -> option str -> result (list FeatureSet)
}.

(** ** [BaseTokenizer] *)

(** [clear]: the state of a fresh session. *)
Definition clear : M unit :=
  put_self {| self_tokens := [];
              self_frequencies := ∅;
              self_feature_sets := ∅ |}.

(** The loop of [sound_trigrams]; the distance of [end_slice] to the end of
    the word shrinks with every turn. *)
Equations? sound_trigrams_loop (word : str) (begin_slice end_slice : nat)
    (trigrams : list str) : list str
    by wf (S (length word) - end_slice) lt :=
  sound_trigrams_loop word begin_slice end_slice trigrams
    with le_dec end_slice (length word) := {
    | left _ =>
        sound_trigrams_loop word (begin_slice + 1) (end_slice + 1)
          (trigrams ++ [slice word begin_slice end_slice]);
    | right _ => trigrams
    }.
Proof. lia. Qed.

(** [sound_trigrams] *)
Definition sound_trigrams (word : str) : list str :=
  sound_trigrams_loop word 0 3 [].

(** The local variables the loop of [tokenize] updates. *)
Record Locals := {
  tokens : list Token;
  feature_sets : gmap str (obj FeatureSet);
  new_feature_sets : list (obj FeatureSet);
  frequency_list : list (str * obj Frequency);
  norm_i : nat
}.

(** The keywords line 156 passes by name.  A bundle that holds one of them
    as a key gives [FeatureSet(form=n, language=language, **f)] the same
    keyword twice. *)
Definition reserved (k : string) : bool :=
  String.eqb k "form" || String.eqb k "language".

(** A bundle that line 156 can unpack beside [form] and [language]. *)
Definition admissible (f : FeatureBundle) : bool :=
  negb (existsb (fun p => reserved (fst p)) f).

(** [FeatureSet(form=n, language=language, **f)]: the call of line 156
    raises [TypeError] for a keyword given twice, whatever the class
    does.  The constructor itself is not among the sources; as the
    specification has it, it takes the bundle as an open mapping of
    features and builds the entity. *)
Definition new_FeatureSet (n : str) (language : option str)
    (f : FeatureBundle) : M (obj FeatureSet) :=
  if admissible f
  then new {| fs_form := n; fs_language := language; fs_features := f |}
  else raise TypeError.

Section Assembler.
(** What the loop reads and never writes. *)
Variable text : option Text.
Variable language : option str.
Variable normalized : list str.
Variable featurized : list FeatureBundle.
Variable frequencies : gmap str Z.
Variable base : nat.

(** Lines 153 to 158: the feature set of the form [n]. *)
Definition resolve_feature_set (n : str) (f : FeatureBundle) (st : Locals)
  : M (obj FeatureSet * gmap str (obj FeatureSet) * list (obj FeatureSet)) :=
  match feature_sets st !! n with
  | Some feature_set =>
      mret (feature_set, feature_sets st, new_feature_sets st)
  | None =>
      feature_set ← new_FeatureSet n language f;
      mret (feature_set,
            <[n := feature_set]> (feature_sets st),
            new_feature_sets st ++ [feature_set])
  end.

(** Lines 160 to 166: the frequency of the form [n]. *)
Definition resolve_frequency (n : str) (feature_set : obj FeatureSet)
    (st : Locals) : M (obj Frequency * list (str * obj Frequency)) :=
  match assoc n (frequency_list st) with
  | Some frequency => mret (frequency, frequency_list st)
  | None =>
      frequency ← new {| freq_text := text;
                         freq_feature_set := feature_set;
                         freq_frequency := count_of frequencies n |};
      mret (frequency, frequency_list st ++ [(n, frequency)])
  end.

(** Lines 146 to 172: one turn of the loop, for the display token [d] at
    position [i]. *)
Definition loop_body (i : nat) (d : str) (st : Locals) : M Locals :=
  let idx := i + base in
  if word_bearing d then
    n ← index normalized (norm_i st);
    f ← index featurized (norm_i st);
    '(feature_set, fsets, news) ← resolve_feature_set n f st;
    '(frequency, flist) ← resolve_frequency n feature_set st;
    let t := {| tok_text := text; tok_index := idx; tok_display := d;
                tok_feature_set := Some feature_set;
                tok_frequency := Some frequency |} in
    mret {| tokens := tokens st ++ [t];
            feature_sets := fsets;
            new_feature_sets := news;
            frequency_list := flist;
            norm_i := norm_i st + 1 |}
  else
    let t := {| tok_text := text; tok_index := idx; tok_display := d;
                tok_feature_set := None;
                tok_frequency := None |} in
    mret {| tokens := tokens st ++ [t];
            feature_sets := feature_sets st;
            new_feature_sets := new_feature_sets st;
            frequency_list := frequency_list st;
            norm_i := norm_i st |}.

(** [for i, d in enumerate(display)], entered at position [i]. *)
Fixpoint loop (display : list str) (i : nat) (st : Locals) : M Locals :=
  match display with
  | [] => mret st
  | d :: display' =>
      st' ← loop_body i d st;
      loop display' (S i) st'
  end.

End Assembler.

(** Lines 175 to 181: the update of the instance under [record]. *)
Definition record_call (st : Locals) (frequencies : gmap str Z) : M unit :=
  s ← get_self;
  let fr := self_frequencies s in
  let fr := match fr !! [] with
            | Some _ => delete [] fr
            | None => fr
            end in
  put_self {| self_tokens := self_tokens s ++ tokens st;
              self_frequencies := counter_update fr frequencies;
              self_feature_sets := feature_sets st ∪ self_feature_sets s |}.

Section Tokenizer.
Context {U : UnicodeData} {F : Featurizer} {C : Connection}.

(** [{fs.form: fs for fs in feature_sets}] *)
Definition by_form (l : list (obj FeatureSet)) : gmap str (obj FeatureSet) :=
  foldl (fun m fs => <[fs_form (val fs) := fs]> m) ∅ l.

(** [tokenize].  The source lines are given on the right. *)
Definition tokenize (raw : raw_text) (record : bool) (text : option Text)
  : M (list Token * list (obj Frequency) * list (obj FeatureSet)) :=
  let normalized := normalized_stream raw in                  (* 113-115 *)
  raw ← match raw with                                        (* 116 *)
        | RawStr s => mret s
        | RawList _ => raise TypeError   (* re.sub wants a string *)
        end;
  let display := display_stream raw in                        (* 116-118 *)
  featurized ← lift (featurize normalized);                   (* 119 *)
  let frequencies := Counter normalized in                    (* 123-124 *)
  lang ← attr_language text;                                  (* 127 *)
  found ← lift (find "feature_sets" lang);                    (* 126 *)
  found ← mapM new found;        (* the entities are objects of this call *)
  let seeded := by_form found in                              (* 128 *)
  let text_id := text in                    (* 132-135; never read again *)
  language ← try_except (attr_language text) "AttributeError"
               (mret None);                                   (* 137-140 *)
  s ← get_self;
  let base := length (self_tokens s) in                       (* 143 *)
  st ← loop text language normalized featurized frequencies base display 0
         {| tokens := [];                                     (* 122 *)
            feature_sets := seeded;
            new_feature_sets := [];                           (* 129 *)
            frequency_list := [];                             (* 125 *)
            norm_i := 0 |};                                   (* 144 *)
  _ ← (if record then record_call st frequencies else mret tt);
  mret (tokens st, List.map snd (frequency_list st), new_feature_sets st).

End Tokenizer.

(** ** Fixtures: a small language and its store *)

(** A featurizer in the style of the language subclasses: one bundle per
    token, holding the token as its own lemma. *)
Definition lemma_featurizer : Featurizer :=
  {| featurize := fun l => Ok (List.map (fun n => [("lemmata"%string, n)]) l) |}.

(** A featurizer whose bundles hold the token under the key [form]. *)
Definition form_featurizer : Featurizer :=
  {| featurize := fun l => Ok (List.map (fun n => [("form"%string, n)]) l) |}.

(** A connection over a fixed collection of stored feature sets, filtered
    by language. *)
Definition store (l : list FeatureSet) : Connection :=
  {| find := fun _ lang =>
       Ok (List.filter
             (fun fs => bool_decide (fs_language fs = lang)) l) |}.

Definition latin : Text :=
  {| text_cts_urn := py "urn:cts:latinLit:phi0690.phi003";
     text_language := Some (py "latin");
     text_author := py "vergil";
     text_title := py "aeneid";
     text_year := 19;
     text_path := py "vergil.aeneid.tess";
     text_hash := [] |}.

(** The session [clear] leaves behind. *)
Definition fresh : Runtime :=
  {| self := {| self_tokens := [];
                self_frequencies := ∅;
                self_feature_sets := ∅ |};
     next_oid := 0 |}.

(** ** Vocabulary of the specification *)

(** The normalized form a token was resolved with: the form of the feature
    set it references. *)
Definition tok_form (t : Token) : option str :=
  (fun fs => fs_form (val fs)) <$> tok_feature_set t.

Definition has_form (n : str) (t : Token) : bool :=
  bool_decide (tok_form t = Some n).

(** The number of word-bearing tokens of a display stream. *)
Definition word_bearing_count (display : list str) : nat :=
  length (List.filter word_bearing display).

(** The number of times [n] occurs in a stream. *)
Definition occurrences (n : str) (l : list str) : nat :=
  length (List.filter (fun m => bool_decide (m = n)) l).

Section Invariant.
Variables (text : option Text) (language : option str)
  (normalized : list str) (featurized : list FeatureBundle)
  (frequencies : gmap str Z) (base : nat).

(** A token agrees with the two dictionaries of the loop: a word-bearing
    one holds the entries stored under its form, any other holds two null
    references. *)
Definition resolved (st : Locals) (t : Token) : Prop :=
  match tok_feature_set t with
  | Some fs =>
      word_bearing (tok_display t) = true /\
      feature_sets st !! fs_form (val fs) = Some fs /\
      exists fq, tok_frequency t = Some fq /\
                 assoc (fs_form (val fs)) (frequency_list st) = Some fq
  | None =>
      word_bearing (tok_display t) = false /\ tok_frequency t = None
  end.

(** What holds of the local variables once the display tokens [pre] have
    been processed. *)
Record Inv (pre : list str) (st : Locals) : Prop := {
  inv_display : List.map tok_display (tokens st) = pre;
  inv_index : List.map tok_index (tokens st) = seq base (length pre);
  inv_text : Forall (fun t => tok_text t = text) (tokens st);
  inv_cursor : norm_i st = word_bearing_count pre;
  inv_bound : norm_i st <= length normalized /\
              norm_i st <= length featurized;
  inv_forms : omap tok_form (tokens st) = take (norm_i st) normalized;
  inv_tokens : Forall (resolved st) (tokens st);
  inv_cache : forall n fs,
    feature_sets st !! n = Some fs -> fs_form (val fs) = n;
  inv_freq : forall n fq,
    assoc n (frequency_list st) = Some fq ->
    freq_frequency (val fq) = count_of frequencies n /\
    freq_text (val fq) = text /\
    feature_sets st !! n = Some (freq_feature_set (val fq))
}.

End Invariant.

(** The local variables on entry to the loop. *)
Definition entry (seeded : gmap str (obj FeatureSet)) : Locals :=
  {| tokens := [];
     feature_sets := seeded;
     new_feature_sets := [];
     frequency_list := [];
     norm_i := 0 |}.

(** [tokenize] of the small language over a given store. *)
Definition latin_tokenize (stored : list FeatureSet) :=
  @tokenize ascii_tables lemma_featurizer (store stored).

(** The parts of the outcome of a call; a call that raised has none. *)
Definition Outcome : Type :=
  result (list Token * list (obj Frequency) * list (obj FeatureSet)) * Runtime.

Definition tokens_of (r : Outcome) : list Token :=
  match fst r with Ok (t, _, _) => t | Raise _ => [] end.

Definition frequencies_of (r : Outcome) : list (obj Frequency) :=
  match fst r with Ok (_, f, _) => f | Raise _ => [] end.

Definition new_feature_sets_of (r : Outcome) : list (obj FeatureSet) :=
  match fst r with Ok (_, _, n) => n | Raise _ => [] end.


(** A session that has recorded ['cano'] before: the form is in its
    feature-set cache, and in no store. *)
Definition cano_cached : obj FeatureSet :=
  Obj 0 {| fs_form := py "cano";
           fs_language := Some (py "latin");
           fs_features := [("lemmata"%string, py "cano")] |}.


(** A computation that leaves the instance alone, whether it returns or
    raises. *)
Definition keeps_self {A} (c : M A) : Prop :=
  forall rt, self (snd (c rt)) = self rt.



(** A session whose counter holds an empty-string key. *)
Definition with_empty_key : Runtime :=
  {| self := {| self_tokens := [];
                self_frequencies := {[ [] := 3%Z ]};
                self_feature_sets := ∅ |};
     next_oid := 0 |}.

(** What a token shows: its index, its display string and the identifiers
    of the two objects it references. *)
Definition summary (t : Token)
  : nat * str * option nat * option nat :=
  (tok_index t, tok_display t,
   oid <$> tok_feature_set t, oid <$> tok_frequency t).

(** The [Frequency] objects of the loop were all built before the
    allocator reached [b], each under an identifier of its own. *)
Definition allocated (b : nat) (st : Locals) : Prop :=
  Forall (fun p => oid (snd p) < b) (frequency_list st) /\
  NoDup (List.map (fun p => oid (snd p)) (frequency_list st)).

(** ** Vocabulary for the rest of the code *)

(** The characters the normalized split keeps: [\w] and the diacriticals,
    the complement of the last alternative of [split_pattern]. *)
Definition analysis_character `{U : UnicodeData} (c : N) : bool :=
  word_class c || member c diacriticals.

(** The raw string once lines 116 and 117 have rewritten it. *)
Definition display_text `{U : UnicodeData} (raw : str) : str :=
  Re.sub (Re.Cls (N.eqb 10)) (py " / ") (Re.sub annotation [] raw).

(** The shape of a display token: a run of word characters, the
    separator [' / '], or one character that is no word character. *)
Definition display_token_shape (d : str) : Prop :=
  if word_bearing d
  then Forall (fun c => word_characters c = true) d
  else d = py " / " \/ exists c, d = [c] /\ word_characters c = false.

(** The elements of a list in the order of their first occurrence: the
    keys of a [dict] filled by [if n not in d: d[n] = ...]. *)
Definition first_occurrences (l : list str) : list str :=
  foldl (fun acc n => if bool_decide (n ∈ acc) then acc else acc ++ [n])
    [] l.

(** The sum of the counts of a list of [Frequency] objects. *)
Definition total_count (freqs : list (obj Frequency)) : Z :=
  foldr (fun fq acc => (freq_frequency (val fq) + acc)%Z) 0%Z freqs.

(** The form a [Frequency] is about: the form of its feature set. *)
Definition freq_form (fq : obj Frequency) : str :=
  fs_form (val (freq_feature_set (val fq))).

Section Ledger.
Variables (seed : gmap str (obj FeatureSet)) (language : option str)
  (normalized : list str) (featurized : list FeatureBundle).

(** A feature set the call has built: its form was not in the seed, it
    sits in the per-call dictionary under its form, it has the language of
    the call, and its bundle is the one at the first position of its form
    in the normalized stream. *)
Definition new_entry (fsets : gmap str (obj FeatureSet)) (cursor : nat)
    (fs : obj FeatureSet) : Prop :=
  seed !! fs_form (val fs) = None /\
  fsets !! fs_form (val fs) = Some fs /\
  fs_language (val fs) = language /\
  exists j, j < cursor /\
    normalized !! j = Some (fs_form (val fs)) /\
    featurized !! j = Some (fs_features (val fs)) /\
    ~ In (fs_form (val fs)) (take j normalized).

(** How the per-call dictionary and the list of new feature sets stand to
    the seed once the cursor has reached [cursor]. *)
Record cache_ledger (fsets : gmap str (obj FeatureSet))
    (news : list (obj FeatureSet)) (cursor : nat) : Prop := {
  led_seed : forall n fs, seed !! n = Some fs -> fsets !! n = Some fs;
  led_cache : forall n fs,
    fsets !! n = Some fs -> seed !! n = Some fs \/ In fs news;
  led_new : Forall (new_entry fsets cursor) news;
  led_new_forms : NoDup (List.map (fun fs => fs_form (val fs)) news);
  led_consumed : forall n,
    In n (take cursor normalized) -> is_Some (fsets !! n)
}.

(** The keys of [frequency_list] are the consumed forms in the order of
    their first occurrence. *)
Definition keys_ledger (flist : list (str * obj Frequency)) (cursor : nat)
  : Prop :=
  List.map fst flist = first_occurrences (take cursor normalized).

Definition Ledger (st : Locals) : Prop :=
  cache_ledger (feature_sets st) (new_feature_sets st) (norm_i st) /\
  keys_ledger (frequency_list st) (norm_i st).

(** Line 156 is reached at the position [j] of the normalized stream when
    the form there is not in the seed and occurs at no earlier position.
    Every bundle it has unpacked before the cursor reached [cursor] held
    neither reserved key. *)
Definition unpacked (cursor : nat) : Prop :=
  forall j n f,
    j < cursor ->
    normalized !! j = Some n ->
    seed !! n = None ->
    ~ In n (take j normalized) ->
    featurized !! j = Some f ->
    admissible f = true.

End Ledger.

(** Line 156 builds a [FeatureSet] at the position [j] of the normalized
    stream: the form there is the form of no stored entity and occurs at
    no earlier position. *)
Definition builds_at (found : list FeatureSet) (normalized : list str)
    (j : nat) : bool :=
  match normalized !! j with
  | Some n =>
      negb (bool_decide (n ∈ List.map fs_form found))
      && negb (bool_decide (n ∈ take j normalized))
  | None => false
  end.

(** No bundle that line 156 unpacks at a position below [w] holds the
    key [form] or [language]. *)
Definition unpackable (found : list FeatureSet) (normalized : list str)
    (featurized : list FeatureBundle) (w : nat) : bool :=
  forallb (fun j =>
             negb (builds_at found normalized j)
             || match featurized !! j with
                | Some f => admissible f
                | None => true
                end)
    (seq 0 w).

(** The stored entity line 128 keeps for the form [n]: the last one of
    that form in the answer of the persisted lookup. *)
Definition kept (found : list FeatureSet) (n : str) : option FeatureSet :=
  last (List.filter (fun e => bool_decide (fs_form e = n)) found).

(** The occurrences in [l] of all the strings of [ks], added up. *)
Definition occurrences_of_all (ks l : list str) : nat :=
  foldr (fun k acc => occurrences k l + acc) 0 ks.

(** The runs the properties of the rest of the tokenizer are tried on. *)
Definition stored_cano : list FeatureSet := [val cano_cached].

Definition bundles (raw : raw_text) : list FeatureBundle :=
  List.map (fun n => [("lemmata"%string, n)])
    (@normalized_stream ascii_tables raw).

Definition run_arma : Outcome :=
  latin_tokenize stored_cano (RawStr (py "arma arma cano")) true
    (Some latin) fresh.

Definition run_digit : Outcome :=
  latin_tokenize [] (RawStr (py "1 a a")) true (Some latin) fresh.

Definition run_fault : Outcome :=
  latin_tokenize [] (RawStr (py "a_b")) true (Some latin) with_empty_key.

Definition run_second : Outcome :=
  latin_tokenize stored_cano (RawStr (py "cano")) true (Some latin)
    (snd run_arma).

Definition run_cleared : Outcome :=
  latin_tokenize stored_cano (RawStr (py "arma arma cano")) true
    (Some latin) (snd (clear with_empty_key)).

(** ** Plain text *)

(** A character of plain text: a word character, or an ASCII character
    that is no letter, digit or underscore and none of [/], [.], [<] and
    the newline, which the patterns treat specially. *)
Definition plain (c : N) : bool :=
  word_characters c
  || (c <? 128)%N && negb (ascii_isalnum c) && negb (N.eqb c 95)
     && negb (N.eqb c 47) && negb (N.eqb c 46) && negb (N.eqb c 60)
     && negb (N.eqb c 10).

(** What the character tables of every interpreter do on ASCII text:
    NFKD leaves it alone, [lower] maps [A-Z] to [a-z] character by
    character, and the alphanumeric characters are the letters and the
    digits. *)
Class AsciiAgree (U : UnicodeData) : Prop := {
  nfkd_ascii : forall s, Forall (fun c => (c < 128)%N) s -> nfkd s = s;
  lower_ascii : forall s,
    Forall (fun c => (c < 128)%N) s -> lower s = List.map ascii_lower_char s;
  isalnum_ascii : forall c, (c < 128)%N -> isalnum c = ascii_isalnum c
}.

(** * Properties *)

(** ** The monad *)

Lemma bind_run {A B} (c : M A) (k : A -> M B) rt :
  (c ≫= k) rt =
  match c rt with
  | (Ok a, rt') => k a rt'
  | (Raise e, rt') => (Raise e, rt')
  end.
Proof. reflexivity. Qed.

Lemma bind_ok {A B} (c : M A) (k : A -> M B) rt b rt2 :
  (c ≫= k) rt = (Ok b, rt2) ->
  exists a rt1, c rt = (Ok a, rt1) /\ k a rt1 = (Ok b, rt2).
Proof.
  rewrite bind_run. destruct (c rt) as [[a|e] rt1]; [eauto | discriminate].
Qed.

Lemma ret_run {A} (a : A) rt : (mret a : M A) rt = (Ok a, rt).
Proof. reflexivity. Qed.

Lemma keeps_ret {A} (a : A) : keeps_self (mret a).
Proof. intros rt; reflexivity. Qed.

Lemma keeps_raise {A} e : keeps_self (@raise A e).
Proof. intros rt; reflexivity. Qed.

Lemma keeps_lift {A} (r : result A) : keeps_self (lift r).
Proof. intros rt; reflexivity. Qed.

Lemma keeps_new {A} (v : A) : keeps_self (new v).
Proof. intros rt; reflexivity. Qed.

Lemma keeps_get_self : keeps_self get_self.
Proof. intros rt; reflexivity. Qed.

Lemma keeps_bind {A B} (c : M A) (k : A -> M B) :
  keeps_self c -> (forall a, keeps_self (k a)) -> keeps_self (c ≫= k).
Proof.
  intros Hc Hk rt. rewrite bind_run. specialize (Hc rt).
  destruct (c rt) as [[a|e] rt1]; simpl in *; [|assumption].
  rewrite Hk. assumption.
Qed.

Lemma keeps_index {A} (l : list A) i : keeps_self (index l i).
Proof. unfold index. destruct (l !! i); [apply keeps_ret | apply keeps_raise]. Qed.

Lemma keeps_attr_language text : keeps_self (attr_language text).
Proof. destruct text; [apply keeps_ret | apply keeps_raise]. Qed.

Lemma keeps_try_except {A} (c h : M A) cls :
  keeps_self c -> keeps_self h -> keeps_self (try_except c cls h).
Proof.
  intros Hc Hh rt. unfold try_except. specialize (Hc rt).
  destruct (c rt) as [[a|[cls']] rt1]; simpl in *; [assumption|].
  destruct (String.eqb cls' cls); [rewrite Hh|]; assumption.
Qed.

Lemma keeps_mapM_new {A} (l : list A) : keeps_self (mapM new l).
Proof.
  induction l as [|x l IH]; simpl; [apply keeps_ret|].
  apply keeps_bind; [apply keeps_new|]. intros o.
  apply keeps_bind; [apply IH|]. intros; apply keeps_ret.
Qed.

Create HintDb keeps.

#[local] Hint Resolve keeps_ret keeps_raise keeps_lift keeps_new
  keeps_get_self keeps_index keeps_attr_language keeps_try_except
  keeps_mapM_new : keeps.

Ltac keeps :=
  repeat first
    [ progress eauto with keeps
    | apply keeps_bind; [| intros ?]
    | match goal with
      | |- keeps_self (match ?x with _ => _ end) => destruct x
      | |- keeps_self (let '(_, _) := ?x in _) => destruct x
      end ].

Section LoopFrame.
Variables (text : option Text) (language : option str)
  (normalized : list str) (featurized : list FeatureBundle)
  (frequencies : gmap str Z) (base : nat).

Lemma keeps_resolve_feature_set n f st :
  keeps_self (resolve_feature_set language n f st).
Proof.
  unfold resolve_feature_set, new_FeatureSet.
  destruct (feature_sets st !! n); [apply keeps_ret|].
  apply keeps_bind; [|intros; apply keeps_ret].
  destruct (admissible f); [apply keeps_new | apply keeps_raise].
Qed.

Lemma keeps_resolve_frequency n fs st :
  keeps_self (resolve_frequency text frequencies n fs st).
Proof. unfold resolve_frequency. keeps. Qed.

Lemma keeps_loop_body i d st :
  keeps_self
    (loop_body text language normalized featurized frequencies base i d st).
Proof.
  unfold loop_body. destruct (word_bearing d); [|apply keeps_ret].
  apply keeps_bind; [apply keeps_index | intros n].
  apply keeps_bind; [apply keeps_index | intros f].
  apply keeps_bind; [apply keeps_resolve_feature_set | intros [[fs m] l]].
  apply keeps_bind; [apply keeps_resolve_frequency | intros [fq fl]].
  apply keeps_ret.
Qed.

Lemma keeps_loop display : forall i st,
  keeps_self
    (loop text language normalized featurized frequencies base display i st).
Proof.
  induction display as [|d display IH]; intros i st; simpl.
  - apply keeps_ret.
  - apply keeps_bind; [apply keeps_loop_body | intros st'; apply IH].
Qed.
End LoopFrame.

(** ** The frame of a call *)

Section Frame.
Context {U : UnicodeData} {F : Featurizer} {C : Connection}.

Lemma keeps_record_off (raw : raw_text) (text : option Text) :
  keeps_self (tokenize raw false text).
Proof.
  unfold tokenize.
  apply keeps_bind; [destruct raw; eauto with keeps | intros s].
  apply keeps_bind; [eauto with keeps | intros fz].
  apply keeps_bind; [eauto with keeps | intros lang].
  apply keeps_bind; [eauto with keeps | intros found].
  apply keeps_bind; [eauto with keeps | intros objs].
  apply keeps_bind; [eauto with keeps | intros language].
  apply keeps_bind; [eauto with keeps | intros s0].
  apply keeps_bind; [apply keeps_loop | intros st].
  apply keeps_bind; [eauto with keeps | intros _].
  apply keeps_ret.
Qed.

(** C3. A call with [record=False] leaves the token list, the frequency
    counter and the feature-set cache of the session exactly as they
    were, whatever the input and the session, and whether the call
    returns or raises. *)
Theorem tokenize_record_off_keeps_session
    (raw : raw_text) (text : option Text) (rt : Runtime) :
  let rt' := snd (tokenize raw false text rt) in
  self_tokens (self rt') = self_tokens (self rt) /\
  self_frequencies (self rt') = self_frequencies (self rt) /\
  self_feature_sets (self rt') = self_feature_sets (self rt).
Proof.
  intros rt'. subst rt'. rewrite keeps_record_off. auto.
Qed.

Lemma fst_bind_ext {A B} (c : M A) (k1 k2 : A -> M B) rt :
  (forall a rt1, fst (k1 a rt1) = fst (k2 a rt1)) ->
  fst ((c ≫= k1) rt) = fst ((c ≫= k2) rt).
Proof.
  intros Hk. rewrite !bind_run.
  destruct (c rt) as [[a|e] rt1]; [apply Hk | reflexivity].
Qed.

(** C9. The tuple [tokenize] returns, or the exception it raises, is the
    same for [record=True] and [record=False]. *)
Theorem tokenize_result_ignores_record
    (raw : raw_text) (text : option Text) (rt : Runtime) :
  fst (tokenize raw true text rt) = fst (tokenize raw false text rt).
Proof.
  unfold tokenize.
  do 8 (apply fst_bind_ext; intros ? ?).
  reflexivity.
Qed.

(** C4. With the text metadata absent the call does not go through: it
    raises, at the latest when line 127 reads [text.language], and gives
    no tokens. *)
Theorem tokenize_text_absent_raises
    (raw : raw_text) (record : bool) (rt : Runtime) :
  exists e, tokenize raw record None rt = (Raise e, rt).
Proof.
  unfold tokenize. rewrite bind_run.
  destruct raw as [s|l]; [|eexists; reflexivity].
  rewrite ret_run, bind_run. unfold lift.
  destruct (featurize _) as [fz|e]; eexists; reflexivity.
Qed.

End Frame.

(** ** Insertion-ordered dictionaries *)

Lemma assoc_app_Some {V} n (d d' : list (str * V)) v :
  assoc n d = Some v -> assoc n (d ++ d') = Some v.
Proof.
  induction d as [|[k w] d IH]; simpl; [discriminate|].
  destruct (decide (k = n)); auto.
Qed.

Lemma assoc_app_None {V} n (d : list (str * V)) k v :
  assoc n d = None ->
  assoc n (d ++ [(k, v)]) = if decide (k = n) then Some v else None.
Proof.
  induction d as [|[k' w] d IH]; simpl; [reflexivity|].
  destruct (decide (k' = n)); [discriminate | auto].
Qed.

Lemma assoc_values {V} n (d : list (str * V)) v :
  assoc n d = Some v -> In v (List.map snd d).
Proof.
  induction d as [|[k w] d IH]; simpl; [discriminate|].
  destruct (decide (k = n)); [intros [= ->]; auto | auto].
Qed.

(** ** One turn of the loop *)

Section LoopBody.
Variables (text : option Text) (language : option str)
  (normalized : list str) (featurized : list FeatureBundle)
  (frequencies : gmap str Z) (base : nat).

Lemma index_run {A} (l : list A) i rt :
  index l i rt =
  match l !! i with
  | Some x => (Ok x, rt)
  | None => (Raise IndexError, rt)
  end.
Proof. unfold index. destruct (l !! i); reflexivity. Qed.

Lemma resolve_feature_set_run n f st rt :
  resolve_feature_set language n f st rt =
  match feature_sets st !! n with
  | Some fs => (Ok (fs, feature_sets st, new_feature_sets st), rt)
  | None =>
      if admissible f then
        let fs := Obj (next_oid rt)
                    {| fs_form := n; fs_language := language;
                       fs_features := f |} in
        (Ok (fs, <[n := fs]> (feature_sets st), new_feature_sets st ++ [fs]),
         {| self := self rt; next_oid := S (next_oid rt) |})
      else (Raise TypeError, rt)
  end.
Proof.
  unfold resolve_feature_set, new_FeatureSet.
  destruct (_ !! n); [reflexivity|]. destruct (admissible f); reflexivity.
Qed.

Lemma resolve_frequency_run n fs st rt :
  resolve_frequency text frequencies n fs st rt =
  match assoc n (frequency_list st) with
  | Some fq => (Ok (fq, frequency_list st), rt)
  | None =>
      let fq := Obj (next_oid rt)
                  {| freq_text := text; freq_feature_set := fs;
                     freq_frequency := count_of frequencies n |} in
      (Ok (fq, frequency_list st ++ [(n, fq)]),
       {| self := self rt; next_oid := S (next_oid rt) |})
  end.
Proof. unfold resolve_frequency. destruct (assoc n _); reflexivity. Qed.

(** The turn for a word-bearing token, spelled out. *)
Lemma loop_body_word i d st rt :
  word_bearing d = true ->
  loop_body text language normalized featurized frequencies base i d st rt =
  match normalized !! norm_i st, featurized !! norm_i st with
  | Some n, Some f =>
      match resolve_feature_set language n f st rt with
      | (Ok (fs, fsets, news), rt1) =>
          match resolve_frequency text frequencies n fs st rt1 with
          | (Ok (fq, flist), rt2) =>
              (Ok {| tokens := tokens st ++
                       [{| tok_text := text; tok_index := i + base;
                           tok_display := d;
                           tok_feature_set := Some fs;
                           tok_frequency := Some fq |}];
                     feature_sets := fsets;
                     new_feature_sets := news;
                     frequency_list := flist;
                     norm_i := norm_i st + 1 |}, rt2)
          | (Raise e, rt2) => (Raise e, rt2)
          end
      | (Raise e, rt1) => (Raise e, rt1)
      end
  | _, _ => (Raise IndexError, rt)
  end.
Proof.
  intros Hd. unfold loop_body. rewrite Hd, bind_run, index_run.
  destruct (normalized !! norm_i st) as [n|]; [|reflexivity].
  rewrite bind_run, index_run.
  destruct (featurized !! norm_i st) as [f|]; [|reflexivity].
  rewrite bind_run.
  destruct (resolve_feature_set language n f st rt)
    as [[[[fs fsets] news]|e] rt1]; [|reflexivity].
  rewrite bind_run.
  destruct (resolve_frequency text frequencies n fs st rt1)
    as [[[fq flist]|e] rt2]; reflexivity.
Qed.

(** The turn for any other token. *)
Lemma loop_body_other i d st rt :
  word_bearing d = false ->
  loop_body text language normalized featurized frequencies base i d st rt =
  (Ok {| tokens := tokens st ++
           [{| tok_text := text; tok_index := i + base; tok_display := d;
               tok_feature_set := None; tok_frequency := None |}];
         feature_sets := feature_sets st;
         new_feature_sets := new_feature_sets st;
         frequency_list := frequency_list st;
         norm_i := norm_i st |}, rt).
Proof. intros Hd. unfold loop_body. rewrite Hd. reflexivity. Qed.

End LoopBody.

(** ** The loop invariant *)

Section LoopInvariant.
Variables (text : option Text) (language : option str)
  (normalized : list str) (featurized : list FeatureBundle)
  (frequencies : gmap str Z) (base : nat).

Abbreviation inv := (Inv text normalized featurized frequencies base).
Abbreviation body :=
  (loop_body text language normalized featurized frequencies base).
Abbreviation run_loop :=
  (loop text language normalized featurized frequencies base).

Lemma resolved_ext st st' t :
  (forall k v, feature_sets st !! k = Some v ->
               feature_sets st' !! k = Some v) ->
  (forall k v, assoc k (frequency_list st) = Some v ->
               assoc k (frequency_list st') = Some v) ->
  resolved st t -> resolved st' t.
Proof.
  intros Hfs Hfq. unfold resolved.
  destruct (tok_feature_set t) as [fs|]; [|auto].
  intros (Hw & Hc & fq & Ht & Ha). eauto 10.
Qed.

Lemma resolve_feature_set_ok n f st rt fs fsets news rt1 :
  (forall k v, feature_sets st !! k = Some v -> fs_form (val v) = k) ->
  resolve_feature_set language n f st rt = (Ok (fs, fsets, news), rt1) ->
  fsets !! n = Some fs /\
  fs_form (val fs) = n /\
  (forall k v, feature_sets st !! k = Some v -> fsets !! k = Some v) /\
  (forall k v, fsets !! k = Some v -> fs_form (val v) = k).
Proof.
  intros Hcache. rewrite resolve_feature_set_run.
  destruct (feature_sets st !! n) as [fs0|] eqn:E; cbv zeta.
  - intros [= <- <- <- <-]. eauto.
  - destruct (admissible f); [|discriminate]. cbv zeta.
    intros [= <- <- <- <-]. split; [apply lookup_insert_eq|].
    split; [reflexivity|]. split.
    + intros k v Hk. rewrite lookup_insert_ne; [assumption|].
      intros ->. congruence.
    + intros k v. rewrite lookup_insert. case_decide as Hk.
      * intros [= <-]. simpl. assumption.
      * apply Hcache.
Qed.

Lemma resolve_frequency_ok (n : str) (fs : obj FeatureSet) (st : Locals)
    (fsets : gmap str (obj FeatureSet)) rt fq flist rt1 :
  (forall k q, assoc k (frequency_list st) = Some q ->
     freq_frequency (val q) = count_of frequencies k /\
     freq_text (val q) = text /\
     fsets !! k = Some (freq_feature_set (val q))) ->
  fsets !! n = Some fs ->
  resolve_frequency text frequencies n fs st rt = (Ok (fq, flist), rt1) ->
  assoc n flist = Some fq /\
  (forall k v, assoc k (frequency_list st) = Some v ->
               assoc k flist = Some v) /\
  (forall k q, assoc k flist = Some q ->
     freq_frequency (val q) = count_of frequencies k /\
     freq_text (val q) = text /\
     fsets !! k = Some (freq_feature_set (val q))).
Proof.
  intros Hfreq Hfs. rewrite resolve_frequency_run.
  destruct (assoc n (frequency_list st)) as [fq0|] eqn:E; cbv zeta.
  - intros [= <- <- <-]. eauto.
  - intros [= <- <- <-]. split; [|split].
    + rewrite assoc_app_None by assumption. apply decide_True. reflexivity.
    + intros k v. apply assoc_app_Some.
    + intros k q.
      destruct (assoc k (frequency_list st)) as [q0|] eqn:Ek.
      * rewrite (assoc_app_Some _ _ _ _ Ek). intros [= <-]. auto.
      * rewrite assoc_app_None by assumption. case_decide as Hk.
        -- intros [= <-]. subst k. simpl. auto.
        -- discriminate.
Qed.

Lemma word_bearing_count_snoc pre d :
  word_bearing_count (pre ++ [d]) =
  word_bearing_count pre + (if word_bearing d then 1 else 0).
Proof.
  unfold word_bearing_count. rewrite List.filter_app, length_app. simpl.
  destruct (word_bearing d); reflexivity.
Qed.

(** One turn carries the invariant from [pre] to [pre ++ [d]]. *)
Lemma loop_body_inv pre d st rt st' rt' :
  inv pre st ->
  body (length pre) d st rt = (Ok st', rt') ->
  inv (pre ++ [d]) st'.
Proof.
  intros [Hdisp Hidx Htext Hcur [Hb1 Hb2] Hforms Htoks Hcache Hfreq] H.
  assert (Hseq : seq base (length (pre ++ [d])) =
                 seq base (length pre) ++ [length pre + base]).
  { rewrite length_app. simpl. rewrite seq_app. simpl.
    do 2 f_equal. lia. }
  destruct (word_bearing d) eqn:Hd.
  - rewrite loop_body_word in H by assumption.
    destruct (normalized !! norm_i st) as [n|] eqn:En; [|discriminate].
    destruct (featurized !! norm_i st) as [f|] eqn:Ef; [|discriminate].
    destruct (resolve_feature_set language n f st rt)
      as [[[[fs fsets] news]|e] rt1] eqn:R1; [|discriminate].
    destruct (resolve_frequency text frequencies n fs st rt1)
      as [[[fq flist]|e] rt2] eqn:R2; [|discriminate].
    injection H as <- <-.
    apply resolve_feature_set_ok in R1 as (Hn & Hform & Hext & Hcache');
      [|assumption].
    apply (resolve_frequency_ok _ _ _ fsets) in R2 as (Hq & Hextq & Hfreq');
      [| |assumption].
    2:{ intros k q Hk. destruct (Hfreq k q Hk) as (? & ? & ?). auto. }
    constructor; simpl.
    + rewrite List.map_app, Hdisp. reflexivity.
    + rewrite List.map_app, Hidx, Hseq. reflexivity.
    + apply Forall_app. split; [assumption|]. repeat constructor.
    + rewrite word_bearing_count_snoc, Hd. lia.
    + apply lookup_lt_Some in En. apply lookup_lt_Some in Ef. lia.
    + rewrite omap_app, Hforms, Nat.add_1_r. simpl.
      rewrite Hform.
      symmetry. apply take_S_r. assumption.
    + apply Forall_app. split.
      * eapply Forall_impl; [eassumption|]. intros t.
        apply resolved_ext; assumption.
      * constructor; [|constructor].
        unfold resolved. simpl. rewrite Hform. eauto 10.
    + assumption.
    + assumption.
  - rewrite loop_body_other in H by assumption. injection H as <- <-.
    constructor; simpl.
    + rewrite List.map_app, Hdisp. reflexivity.
    + rewrite List.map_app, Hidx, Hseq. reflexivity.
    + apply Forall_app. split; [assumption|]. repeat constructor.
    + rewrite word_bearing_count_snoc, Hd. lia.
    + auto.
    + rewrite omap_app, Hforms. simpl. apply app_nil_r.
    + apply Forall_app. split.
      * eapply Forall_impl; [eassumption|]. intros t.
        apply resolved_ext; auto.
      * constructor; [|constructor].
        unfold resolved. simpl. auto.
    + assumption.
    + assumption.
Qed.

(** The loop carries it over the whole display stream. *)
Lemma loop_inv display : forall pre st rt st' rt',
  inv pre st ->
  run_loop display (length pre) st rt = (Ok st', rt') ->
  inv (pre ++ display) st'.
Proof.
  induction display as [|d display IH]; intros pre st rt st' rt' HI H.
  - simpl in H. injection H as <- <-. rewrite app_nil_r. assumption.
  - simpl in H. apply bind_ok in H as (st1 & rt1 & Hb & H).
    apply (loop_body_inv pre d) in Hb; [|assumption].
    replace (S (length pre)) with (length (pre ++ [d])) in H
      by (rewrite length_app; simpl; lia).
    apply IH in H; [|assumption].
    rewrite <- app_assoc in H. assumption.
Qed.

(** The exceptions of the loop: the out-of-range read of line 150 or 151
    and the keyword given twice of line 156.  Either leaves the
    interpreter state of the turn as it was. *)
Lemma loop_body_raise i d st rt e rt' :
  body i d st rt = (Raise e, rt') ->
  (e = IndexError \/ e = TypeError) /\ rt' = rt.
Proof.
  destruct (word_bearing d) eqn:Hd.
  - rewrite loop_body_word by assumption.
    destruct (normalized !! norm_i st) as [n|];
      [|intros [= <- <-]; auto].
    destruct (featurized !! norm_i st) as [f|];
      [|intros [= <- <-]; auto].
    rewrite resolve_feature_set_run.
    destruct (feature_sets st !! n); [|destruct (admissible f)];
      cbv beta iota zeta;
      try (intros [= <- <-]; auto);
      rewrite resolve_frequency_run;
      destruct (assoc n (frequency_list st)); discriminate.
  - rewrite loop_body_other by assumption. discriminate.
Qed.

Lemma loop_raise display : forall i st rt e rt',
  run_loop display i st rt = (Raise e, rt') ->
  e = IndexError \/ e = TypeError.
Proof.
  induction display as [|d display IH]; intros i st rt e rt' H;
    simpl in H; [discriminate|].
  rewrite bind_run in H.
  destruct (body i d st rt) as [[st1|e1] rt1] eqn:Hb.
  - eapply IH; eassumption.
  - injection H as <- <-. apply loop_body_raise in Hb. tauto.
Qed.

(** With bundles that hold neither key, the out-of-range read is the
    only exception. *)
Lemma loop_body_raise_index i d st rt e rt' :
  Forall (fun f => admissible f = true) featurized ->
  body i d st rt = (Raise e, rt') -> e = IndexError.
Proof.
  intros Hadm. destruct (word_bearing d) eqn:Hd.
  - rewrite loop_body_word by assumption.
    destruct (normalized !! norm_i st) as [n|];
      [|intros [= <- <-]; auto].
    destruct (featurized !! norm_i st) as [f|] eqn:Ef;
      [|intros [= <- <-]; auto].
    assert (Hf : admissible f = true).
    { rewrite Forall_forall in Hadm.
      apply Hadm, (list_elem_of_lookup_2 _ _ _ Ef). }
    rewrite resolve_feature_set_run, Hf.
    destruct (feature_sets st !! n); cbv beta iota zeta;
      rewrite resolve_frequency_run;
      destruct (assoc n (frequency_list st)); discriminate.
  - rewrite loop_body_other by assumption. discriminate.
Qed.

Lemma loop_raise_index display : forall i st rt e rt',
  Forall (fun f => admissible f = true) featurized ->
  run_loop display i st rt = (Raise e, rt') -> e = IndexError.
Proof.
  induction display as [|d display IH]; intros i st rt e rt' Hadm H;
    simpl in H; [discriminate|].
  rewrite bind_run in H.
  destruct (body i d st rt) as [[st1|e1] rt1] eqn:Hb.
  - eapply IH; eassumption.
  - injection H as <- <-. eapply loop_body_raise_index; eassumption.
Qed.

End LoopInvariant.

(** ** A call, step by step *)

Section Call.
Context {U : UnicodeData} {F : Featurizer} {C : Connection}.

Lemma by_form_keyed (l : list (obj FeatureSet)) :
  forall (m : gmap str (obj FeatureSet)),
  (forall n fs, m !! n = Some fs -> fs_form (val fs) = n) ->
  forall n fs,
    foldl (fun m fs => <[fs_form (val fs) := fs]> m) m l !! n = Some fs ->
    fs_form (val fs) = n.
Proof.
  induction l as [|o l IH]; intros m Hm n fs; simpl; [apply Hm|].
  apply IH. intros k v. rewrite lookup_insert. case_decide as Hk.
  - intros [= <-]. assumption.
  - apply Hm.
Qed.

Lemma entry_inv text normalized featurized frequencies base found :
  Inv text normalized featurized frequencies base [] (entry (by_form found)).
Proof.
  constructor; simpl.
  - reflexivity.
  - reflexivity.
  - constructor.
  - reflexivity.
  - lia.
  - reflexivity.
  - constructor.
  - intros n fs. apply by_form_keyed. intros k v.
    rewrite lookup_empty. discriminate.
  - intros n fq. discriminate.
Qed.

(** A call that returns went through every stage: the argument was a
    string, the text was there, the featurizer and the store answered,
    and the loop ran to the end of the display stream. *)
Lemma tokenize_ok raw record text rt toks freqs news rt' :
  tokenize raw record text rt = (Ok (toks, freqs, news), rt') ->
  exists s t fz found objs rt1 st rt2,
    raw = RawStr s /\ text = Some t /\
    featurize (normalized_stream raw) = Ok fz /\
    find "feature_sets" (text_language t) = Ok found /\
    mapM new found rt = (Ok objs, rt1) /\
    loop text (text_language t) (normalized_stream raw) fz
      (Counter (normalized_stream raw)) (length (self_tokens (self rt1)))
      (display_stream s) 0 (entry (by_form objs)) rt1 = (Ok st, rt2) /\
    toks = tokens st /\
    freqs = List.map snd (frequency_list st) /\
    news = new_feature_sets st /\
    rt' = (if record
           then snd (record_call st (Counter (normalized_stream raw)) rt2)
           else rt2).
Proof.
  unfold tokenize. intros H.
  apply bind_ok in H as (s & r0 & Hraw & H).
  destruct raw as [s0|l]; [|discriminate]. injection Hraw as <- <-.
  apply bind_ok in H as (fz & r0 & Hfz & H).
  unfold lift in Hfz. injection Hfz as Hfz <-.
  apply bind_ok in H as (lang & r0 & Hlang & H).
  destruct text as [t|]; [|discriminate]. injection Hlang as <- <-.
  apply bind_ok in H as (found & r0 & Hfound & H).
  unfold lift in Hfound. injection Hfound as Hfound <-.
  apply bind_ok in H as (objs & rt1 & Hobjs & H).
  apply bind_ok in H as (language & r0 & Hl & H).
  injection Hl as <- <-.
  apply bind_ok in H as (s1 & r0 & Hs & H).
  injection Hs as <- <-.
  apply bind_ok in H as (st & rt2 & Hloop & H).
  exists s0, t, fz, found, objs, rt1, st, rt2.
  repeat (split; [first [reflexivity | assumption]|]).
  destruct record.
  - rewrite bind_run in H. unfold record_call at 1 in H. simpl in H.
    injection H as <- <- <- <-. auto.
  - injection H as <- <- <- <-. auto.
Qed.

Lemma bind_raise_ext {A B} (c : M A) (k1 k2 : A -> M B) rt e rt' :
  (forall a rt1, k1 a rt1 = (Raise e, rt') -> k2 a rt1 = (Raise e, rt')) ->
  (c ≫= k1) rt = (Raise e, rt') -> (c ≫= k2) rt = (Raise e, rt').
Proof.
  intros Hk. rewrite !bind_run.
  destruct (c rt) as [[a|e1] rt1]; [apply Hk | auto].
Qed.

(** A call that raises has not touched the instance. *)
Lemma tokenize_raise_keeps_session raw record text rt e rt' :
  tokenize raw record text rt = (Raise e, rt') -> self rt' = self rt.
Proof.
  intros H.
  assert (H' : tokenize raw false text rt = (Raise e, rt')).
  { revert H. unfold tokenize.
    do 8 (apply bind_raise_ext; intros ? ?).
    destruct record; [|auto]. discriminate. }
  pose proof (keeps_record_off raw text rt) as Hk.
  rewrite H' in Hk. assumption.
Qed.

Lemma mapM_new_keeps {A} (l : list A) rt objs rt1 :
  mapM new l rt = (Ok objs, rt1) -> self rt1 = self rt.
Proof.
  intros H. pose proof (keeps_mapM_new l rt) as Hk.
  rewrite H in Hk. assumption.
Qed.

Lemma mapM_new_total {A} (l : list A) :
  forall rt, exists objs rt1, mapM new l rt = (Ok objs, rt1).
Proof.
  induction l as [|x l IH]; intros rt; simpl; [eexists _, _; reflexivity|].
  destruct (IH {| self := self rt; next_oid := S (next_oid rt) |})
    as (objs & rt1 & E).
  exists (Obj (next_oid rt) x :: objs), rt1.
  rewrite bind_run. unfold new at 1. cbv beta iota.
  rewrite bind_run, E. reflexivity.
Qed.

(** A call on a string, with the text given and the collaborators
    answering, stands or falls with its loop. *)
Lemma tokenize_run s record t rt fz found objs rt1 :
  featurize (normalized_stream (RawStr s)) = Ok fz ->
  find "feature_sets" (text_language t) = Ok found ->
  mapM new found rt = (Ok objs, rt1) ->
  tokenize (RawStr s) record (Some t) rt =
  match
    loop (Some t) (text_language t) (normalized_stream (RawStr s)) fz
      (Counter (normalized_stream (RawStr s)))
      (length (self_tokens (self rt1)))
      (display_stream s) 0 (entry (by_form objs)) rt1
  with
  | (Ok st, rt2) =>
      (Ok (tokens st, List.map snd (frequency_list st),
           new_feature_sets st),
       if record
       then snd (record_call st (Counter (normalized_stream (RawStr s))) rt2)
       else rt2)
  | (Raise e, rt2) => (Raise e, rt2)
  end.
Proof.
  intros Hfz Hfound Hobjs. unfold tokenize.
  rewrite bind_run, ret_run, bind_run, Hfz. unfold lift at 1.
  rewrite bind_run. unfold attr_language at 1. rewrite ret_run.
  rewrite bind_run, Hfound. unfold lift at 1.
  rewrite bind_run, Hobjs.
  rewrite bind_run. unfold try_except, attr_language. rewrite ret_run.
  rewrite bind_run. unfold get_self at 1.
  rewrite bind_run. fold (entry (by_form objs)).
  destruct (loop _ _ _ _ _ _ _ _ _ _) as [[st|e] rt2]; [|reflexivity].
  destruct record; reflexivity.
Qed.

End Call.

(** ** The normalizer *)

Lemma ascii_lower_char_idem c :
  ascii_lower_char (ascii_lower_char c) = ascii_lower_char c.
Proof.
  unfold ascii_lower_char.
  destruct ((65 <=? c)%N && (c <=? 90)%N) eqn:E; [|rewrite E; reflexivity].
  apply andb_true_iff in E as [E _]. apply N.leb_le in E.
  assert (H : (c + 32 <=? 90)%N = false) by (apply N.leb_gt; lia).
  rewrite H, andb_false_r. reflexivity.
Qed.

(** The ASCII tables obey the laws. *)
Lemma ascii_laws : UnicodeLaws ascii_tables.
Proof.
  constructor; simpl.
  - reflexivity.
  - intros s. rewrite List.map_map. apply List.map_ext.
    intros c. apply ascii_lower_char_idem.
  - reflexivity.
Qed.

Section Normalizer.
Context {U : UnicodeData} {L : UnicodeLaws U}.

(** C8. [normalize] is idempotent: normalizing its own output changes
    nothing, for a string and for a list of strings alike, as long as the
    character tables of the interpreter obey [UnicodeLaws]. *)
Theorem normalize_idempotent (x : raw_text) :
  normalize (RawStr (normalize x)) = normalize x.
Proof.
  unfold normalize.
  rewrite (lower_nfkd (nfkd _)) by apply nfkd_idem.
  apply lower_idem.
Qed.

End Normalizer.

(** Joining a list with single spaces first is all [normalize] does with
    it. *)
Lemma normalize_list_join `{U : UnicodeData} (a b : str) :
  normalize (RawList [a; b]) = normalize (RawStr (a ++ py " " ++ b)).
Proof. reflexivity. Qed.

Lemma normalize_idempotent_witness :
  let x := RawList [py "Arma"; py "VIRUMque"; py "cano"] in
  @normalize ascii_tables x = py "arma virumque cano" /\
  @normalize ascii_tables (RawStr (@normalize ascii_tables x)) =
  @normalize ascii_tables x.
Proof.
  split; [reflexivity|].
  apply (@normalize_idempotent ascii_tables ascii_laws).
Defined.

(** ** The trigram helper *)

Lemma map_fmap {A B} (f : A -> B) (l : list A) : List.map f l = f <$> l.
Proof. induction l as [|x l IH]; simpl; [reflexivity | f_equal; exact IH]. Qed.

Lemma sound_trigrams_loop_spec (w : str) (b e : nat) (acc : list str) :
  sound_trigrams_loop w b e acc =
  acc ++ List.map (fun j => slice w (b + j) (e + j))
           (seq 0 (S (length w) - e)).
Proof.
  funelim (sound_trigrams_loop w b e acc).
  - rewrite H. rewrite <- app_assoc. f_equal.
    replace (S (length word) - end_slice)
      with (S (S (length word) - (end_slice + 1))) by lia.
    rewrite <- cons_seq, <- seq_shift, List.map_cons, List.map_map. simpl.
    rewrite !Nat.add_0_r. f_equal.
    apply List.map_ext. intros j. f_equal; lia.
  - replace (S (length word) - end_slice) with 0 by lia.
    simpl. rewrite app_nil_r. reflexivity.
Qed.

(** C10. [sound_trigrams(w)] lists the windows of three characters of [w]
    from left to right: the one at every position [i] with
    [i + 3 <= len(w)], so [len(w) - 2] of them when [w] has three
    characters or more and none otherwise; every substring of three
    characters of [w] is in the list, at the position where it starts. *)
Theorem sound_trigrams_windows (w : str) :
  sound_trigrams w =
    List.map (fun i => take 3 (drop i w)) (seq 0 (length w - 2)) /\
  length (sound_trigrams w) = length w - 2 /\
  (length w < 3 -> sound_trigrams w = []) /\
  (forall t, In t (sound_trigrams w) -> length t = 3) /\
  (forall pre t post,
     w = pre ++ t ++ post -> length t = 3 ->
     sound_trigrams w !! length pre = Some t).
Proof.
  assert (E : sound_trigrams w =
              List.map (fun i => take 3 (drop i w)) (seq 0 (length w - 2))).
  { unfold sound_trigrams. rewrite sound_trigrams_loop_spec. simpl.
    replace (S (length w) - 3) with (length w - 2) by lia.
    apply List.map_ext. intros i. unfold slice. f_equal. lia. }
  split; [exact E|]. rewrite E. split; [|split; [|split]].
  - rewrite List.length_map, length_seq. reflexivity.
  - intros Hw. replace (length w - 2) with 0 by lia. reflexivity.
  - intros t Ht. apply in_map_iff in Ht as (i & <- & Hi).
    apply in_seq in Hi. rewrite length_take, length_drop. lia.
  - intros pre t post -> Ht.
    rewrite map_fmap, list_lookup_fmap, lookup_seq_lt.
    + simpl. rewrite drop_app_length.
      rewrite take_app_length' by (symmetry; assumption). reflexivity.
    + rewrite !length_app. lia.
Qed.

(** ** Counters *)

Lemma occurrences_snoc n l x :
  occurrences n (l ++ [x]) =
  occurrences n l + (if bool_decide (x = n) then 1 else 0).
Proof.
  unfold occurrences. rewrite List.filter_app, length_app. simpl.
  destruct (bool_decide (x = n)); reflexivity.
Qed.

Lemma Counter_snoc l x :
  Counter (l ++ [x]) = <[x := (count_of (Counter l) x + 1)%Z]> (Counter l).
Proof. unfold Counter. rewrite foldl_snoc. reflexivity. Qed.

(** A counter built from a list holds, for every string that occurs, the
    number of its occurrences, and nothing else. *)
Lemma Counter_lookup l n :
  Counter l !! n =
  if decide (occurrences n l = 0) then None
  else Some (Z.of_nat (occurrences n l)).
Proof.
  induction l as [|x l IH] using rev_ind; [reflexivity|].
  rewrite Counter_snoc, occurrences_snoc, lookup_insert.
  destruct (decide (x = n)) as [->|Hx].
  - rewrite bool_decide_eq_true_2 by reflexivity.
    rewrite decide_False by lia. f_equal. unfold count_of. rewrite IH.
    case_decide as H0; simpl; lia.
  - rewrite bool_decide_eq_false_2 by assumption.
    rewrite Nat.add_0_r. exact IH.
Qed.

Lemma Counter_count l n : count_of (Counter l) n = Z.of_nat (occurrences n l).
Proof.
  unfold count_of. rewrite Counter_lookup.
  case_decide as H0; simpl; lia.
Qed.

Lemma occurrences_empty_truthy l : occurrences [] (List.filter truthy l) = 0.
Proof.
  unfold occurrences. induction l as [|x l IH]; [reflexivity|]. simpl.
  destruct x; simpl; assumption.
Qed.

(** ** What a call that returns has done *)

Section Returned.
Context {U : UnicodeData} {F : Featurizer} {C : Connection}.

Lemma tokenize_inv raw record text rt toks freqs news rt' :
  tokenize raw record text rt = (Ok (toks, freqs, news), rt') ->
  exists s t fz st,
    raw = RawStr s /\ text = Some t /\
    featurize (normalized_stream raw) = Ok fz /\
    Inv text (normalized_stream raw) fz (Counter (normalized_stream raw))
      (length (self_tokens (self rt))) (display_stream s) st /\
    toks = tokens st /\
    freqs = List.map snd (frequency_list st) /\
    news = new_feature_sets st /\
    self rt' =
      if record then
        {| self_tokens := self_tokens (self rt) ++ toks;
           self_frequencies :=
             counter_update (delete [] (self_frequencies (self rt)))
               (Counter (normalized_stream raw));
           self_feature_sets :=
             feature_sets st ∪ self_feature_sets (self rt) |}
      else self rt.
Proof.
  intros H. apply tokenize_ok in H
    as (s & t & fz & found & objs & rt1 & st & rt2 & -> & -> & Hfz & Hfound
        & Hobjs & Hloop & -> & -> & -> & ->).
  apply mapM_new_keeps in Hobjs as Hself1.
  pose proof (keeps_loop (Some t) (text_language t)
    (normalized_stream (RawStr s)) fz
    (Counter (normalized_stream (RawStr s)))
    (length (self_tokens (self rt1))) (display_stream s) 0
    (entry (by_form objs)) rt1) as Hself2.
  rewrite Hloop in Hself2. simpl in Hself2.
  apply (loop_inv _ _ _ _ _ _ _ []) in Hloop; [|apply entry_inv].
  simpl in Hloop. rewrite Hself1 in Hloop.
  exists s, t, fz, st. repeat (split; [first [reflexivity|assumption]|]).
  destruct record; [|congruence].
  unfold record_call. simpl. rewrite Hself2, Hself1.
  destruct (self_frequencies (self rt) !! []) eqn:E; [reflexivity|].
  rewrite delete_id by assumption. reflexivity.
Qed.

End Returned.

(** ** Token indices *)

Lemma seq_lookup_index {A} (f : A -> nat) (l : list A) base i x :
  List.map f l = seq base (length l) -> l !! i = Some x -> f x = i + base.
Proof.
  intros Hmap Hi.
  assert (H : (f <$> l) !! i = Some (f x)) by (rewrite list_lookup_fmap, Hi; reflexivity).
  rewrite <- map_fmap, Hmap in H. apply lookup_seq in H. lia.
Qed.

Section Indices.
Context {U : UnicodeData} {F : Featurizer} {C : Connection}.

Lemma tokenize_index raw record text rt toks freqs news rt' :
  tokenize raw record text rt = (Ok (toks, freqs, news), rt') ->
  List.map tok_index toks =
    seq (length (self_tokens (self rt))) (length toks) /\
  (exists s, raw = RawStr s /\ List.map tok_display toks = display_stream s) /\
  (record = true ->
   length (self_tokens (self rt')) =
     length (self_tokens (self rt)) + length toks).
Proof.
  intros H. apply tokenize_inv in H
    as (s & t & fz & st & -> & -> & _ & HI & -> & -> & -> & Hself).
  destruct HI as [Hdisp Hidx _ _ _ _ _ _ _].
  assert (Hlen : length (tokens st) = length (display_stream s)).
  { rewrite <- Hdisp, List.length_map. reflexivity. }
  split; [rewrite Hlen; exact Hidx|]. split; [eauto|].
  intros ->. rewrite Hself. simpl. apply length_app.
Qed.

(** C6. The index of every emitted token is its position in the display
    stream of the call plus the number of tokens the session held when
    the call began.  Hence, when a call that records is followed by
    another call, the indices of the two calls taken together run without
    gap or repeat from that number upwards, and every index of the second
    call exceeds every index of the first. *)
Theorem tokenize_indices_contiguous
    raw1 raw2 record1 record2 text1 text2 rt
    toks1 freqs1 news1 rt1 toks2 freqs2 news2 rt2 :
  tokenize raw1 record1 text1 rt = (Ok (toks1, freqs1, news1), rt1) ->
  tokenize raw2 record2 text2 rt1 = (Ok (toks2, freqs2, news2), rt2) ->
  let base := length (self_tokens (self rt)) in
  (forall i t, toks1 !! i = Some t -> tok_index t = i + base) /\
  (forall i t, toks2 !! i = Some t ->
     tok_index t = i + length (self_tokens (self rt1))) /\
  (exists s1 s2,
     raw1 = RawStr s1 /\ raw2 = RawStr s2 /\
     List.map tok_display toks1 = display_stream s1 /\
     List.map tok_display toks2 = display_stream s2) /\
  (record1 = true ->
     List.map tok_index (toks1 ++ toks2) =
       seq base (length toks1 + length toks2) /\
     forall t1 t2, In t1 toks1 -> In t2 toks2 ->
       tok_index t1 < tok_index t2).
Proof.
  intros H1 H2 base.
  apply tokenize_index in H1 as (Hi1 & (s1 & -> & Hd1) & Hlen1).
  apply tokenize_index in H2 as (Hi2 & (s2 & -> & Hd2) & _).
  split; [intros i t; apply seq_lookup_index; assumption|].
  split; [intros i t; apply seq_lookup_index; assumption|].
  split; [eauto 10|].
  intros Hrec. specialize (Hlen1 Hrec). fold base in Hlen1, Hi1.
  rewrite Hlen1 in Hi2. split.
  - rewrite List.map_app, Hi1, Hi2, seq_app. reflexivity.
  - intros t1 t2 Ht1 Ht2.
    apply (in_map tok_index) in Ht1, Ht2.
    rewrite Hi1 in Ht1. rewrite Hi2 in Ht2.
    apply in_seq in Ht1, Ht2. lia.
Qed.

End Indices.

Lemma tokenize_indices_contiguous_witness :
  let r1 := latin_tokenize [] (RawStr (py "arma virumque")) true
              (Some latin) fresh in
  let r2 := latin_tokenize [] (RawStr (py "cano")) true
              (Some latin) (snd r1) in
  List.map tok_index (tokens_of r1) = [0; 1; 2] /\
  List.map tok_index (tokens_of r2) = [3] /\
  (true = true ->
   List.map tok_index (tokens_of r1 ++ tokens_of r2) =
     seq 0 (length (tokens_of r1) + length (tokens_of r2)) /\
   forall t1 t2, In t1 (tokens_of r1) -> In t2 (tokens_of r2) ->
     tok_index t1 < tok_index t2).
Proof.
  intros r1 r2.
  split; [vm_compute; reflexivity|]. split; [vm_compute; reflexivity|].
  eapply (@tokenize_indices_contiguous ascii_tables lemma_featurizer (store [])
            (RawStr (py "arma virumque")) (RawStr (py "cano")) true true
            (Some latin) (Some latin) fresh
            (tokens_of r1) (frequencies_of r1) (new_feature_sets_of r1)
            (snd r1)
            (tokens_of r2) (frequencies_of r2) (new_feature_sets_of r2)
            (snd r2)).
  - vm_compute. reflexivity.
  - vm_compute. reflexivity.
Defined.

(** ** The session frequency counter *)

Section Frequencies.
Context {U : UnicodeData} {F : Featurizer} {C : Connection}.

(** C7, as the code has it.  After a call that records, the frequency
    counter of the session is the counter it held before, less its
    empty-string key, with the tally of the normalized stream of the call
    added in.  The tally has no empty-string key of its own.  So every
    count under a non-empty key is kept or raised, and an empty-string
    key of the session is deleted. *)
Theorem tokenize_record_merges_frequencies
    raw text rt toks freqs news rt' :
  tokenize raw true text rt = (Ok (toks, freqs, news), rt') ->
  let pre := self_frequencies (self rt) in
  let post := self_frequencies (self rt') in
  let normalized := normalized_stream raw in
  post = counter_update (delete [] pre) (Counter normalized) /\
  Counter normalized !! [] = None /\
  (forall k, count_of post k =
     (count_of (delete [] pre) k + Z.of_nat (occurrences k normalized))%Z) /\
  (forall k c, k <> [] -> pre !! k = Some c ->
     exists c', post !! k = Some c' /\ (c <= c')%Z) /\
  post !! [] = None.
Proof.
  intros H pre post normalized.
  apply tokenize_inv in H
    as (s & t & fz & st & -> & -> & _ & _ & _ & _ & _ & Hself).
  assert (Hpost : post =
    counter_update (delete [] pre) (Counter normalized)).
  { subst post. rewrite Hself. reflexivity. }
  assert (Hnil : Counter normalized !! [] = None).
  { rewrite Counter_lookup. apply decide_True.
    apply occurrences_empty_truthy. }
  assert (Hcount : forall k, count_of post k =
    (count_of (delete [] pre) k + Z.of_nat (occurrences k normalized))%Z).
  { intros k. rewrite <- Counter_count, Hpost. unfold count_of, counter_update.
    rewrite lookup_union_with.
    destruct (delete [] pre !! k), (Counter normalized !! k);
      simpl; lia. }
  split; [exact Hpost|]. split; [exact Hnil|]. split; [exact Hcount|].
  split.
  - intros k c Hk Hpre.
    assert (Hdel : delete [] pre !! k = Some c)
      by (rewrite lookup_delete_ne; [assumption | congruence]).
    rewrite Hpost. unfold counter_update. rewrite lookup_union_with, Hdel.
    destruct (Counter normalized !! k) as [c0|] eqn:Ek; simpl.
    + eexists; split; [reflexivity|].
      rewrite Counter_lookup in Ek. case_decide; [discriminate|].
      injection Ek as <-. lia.
    + eexists; split; [reflexivity | lia].
  - rewrite Hpost. unfold counter_update.
    rewrite lookup_union_with, lookup_delete_eq, Hnil. reflexivity.
Qed.

End Frequencies.

Lemma tokenize_record_merges_frequencies_witness :
  let r := latin_tokenize [] (RawStr (py "cano cano")) true (Some latin)
             with_empty_key in
  self_frequencies (self (snd r)) = {[ py "cano" := 2%Z ]}.
Proof.
  intros r.
  destruct (@tokenize_record_merges_frequencies
              ascii_tables lemma_featurizer (store [])
              (RawStr (py "cano cano")) (Some latin) with_empty_key
              (tokens_of r) (frequencies_of r) (new_feature_sets_of r)
              (snd r)) as (Hpost & _).
  - vm_compute. reflexivity.
  - rewrite Hpost. vm_compute. reflexivity.
Defined.

(** C7 as stated fails.  The session counter [{'': 3}] loses its
    empty-string key in a recording call: the count is neither preserved
    nor increased, and the counter after the call is not the one before it
    merged with the tally. *)
Lemma tokenize_prunes_empty_key :
  let r := latin_tokenize [] (RawStr (py "cano cano")) true (Some latin)
             with_empty_key in
  let pre := self_frequencies (self with_empty_key) in
  let post := self_frequencies (self (snd r)) in
  let tally := Counter (@normalized_stream ascii_tables
                          (RawStr (py "cano cano"))) in
  length (tokens_of r) = 3 /\
  pre !! [] = Some 3%Z /\
  post !! [] = None /\
  post <> counter_update pre (delete [] tally).
Proof.
  intros r pre post tally.
  split; [vm_compute; reflexivity|].
  split; [vm_compute; reflexivity|].
  split; [vm_compute; reflexivity|].
  intros E. apply (f_equal (fun m => m !! [])) in E.
  vm_compute in E. discriminate.
Qed.

(** ** The alignment fault *)

Section Alignment.
Context {U : UnicodeData} {F : Featurizer} {C : Connection}.

(** C1, as the code has it.  A call whose display stream has more
    word-bearing tokens than its normalized stream has entries returns
    nothing: it raises, and the session is as it was.  There is no bounds
    check of the tokenizer's own.  With the text given and the featurizer
    and the store answering, the exception comes from the loop: it is the
    [IndexError] of an out-of-range read (line 150 or 151), or the
    [TypeError] of line 156 where a bundle holds the key [form] or
    [language]; it is the [IndexError] whenever no bundle holds such a
    key. *)
Theorem tokenize_alignment_fault s record text rt :
  length (normalized_stream (RawStr s))
    < word_bearing_count (display_stream s) ->
  exists e rt',
    tokenize (RawStr s) record text rt = (Raise e, rt') /\
    self rt' = self rt /\
    (forall t fz found,
       text = Some t ->
       featurize (normalized_stream (RawStr s)) = Ok fz ->
       find "feature_sets" (text_language t) = Ok found ->
       (e = IndexError \/ e = TypeError) /\
       (Forall (fun f => admissible f = true) fz -> e = IndexError)).
Proof.
  intros Hlt.
  destruct (tokenize (RawStr s) record text rt) as [[r|e] rt'] eqn:H.
  - exfalso. destruct r as [[toks freqs] news].
    apply tokenize_inv in H
      as (s' & t & fz & st & [= <-] & _ & _ & HI & _).
    destruct HI as [_ _ _ Hcur [Hb _] _ _ _ _]. lia.
  - exists e, rt'. split; [reflexivity|].
    split; [eapply tokenize_raise_keeps_session; eassumption|].
    intros t fz found -> Hfz Hfound.
    destruct (mapM_new_total found rt) as (objs & rt1 & Hobjs).
    rewrite (tokenize_run _ _ _ _ _ _ _ _ Hfz Hfound Hobjs) in H.
    destruct (loop _ _ _ _ _ _ _ _ _ _) as [[st|e1] rt2] eqn:Hloop;
      [discriminate|].
    injection H as <- <-. split.
    + eapply loop_raise. eassumption.
    + intros Hadm. eapply loop_raise_index; eassumption.
Qed.

End Alignment.

Lemma tokenize_alignment_fault_witness :
  exists e rt',
    latin_tokenize [] (RawStr (py "a_b")) true (Some latin) fresh
      = (Raise e, rt') /\
    self rt' = self fresh /\
    (forall t fz found,
       Some latin = Some t ->
       @featurize lemma_featurizer
         (@normalized_stream ascii_tables (RawStr (py "a_b"))) = Ok fz ->
       @find (store []) "feature_sets" (text_language t) = Ok found ->
       (e = IndexError \/ e = TypeError) /\
       (Forall (fun f => admissible f = true) fz -> e = IndexError)).
Proof.
  apply (@tokenize_alignment_fault ascii_tables lemma_featurizer (store [])
           (py "a_b") true (Some latin) fresh).
  vm_compute. lia.
Defined.

(** C1 as stated fails.  On ['a_b'] the display stream has the two
    word-bearing tokens ['a'] and ['b'] and the normalized stream the one
    entry ['a_b']; the call raises [IndexError] from indexing out of range,
    not an [AlignmentBoundsError]. *)
Lemma tokenize_raises_IndexError :
  let s := py "a_b" in
  @normalized_stream ascii_tables (RawStr s) = [py "a_b"] /\
  @display_stream ascii_tables s = [py "a"; py "_"; py "b"] /\
  length (@normalized_stream ascii_tables (RawStr s))
    < word_bearing_count (@display_stream ascii_tables s) /\
  fst (latin_tokenize [] (RawStr s) true (Some latin) fresh)
    = Raise (PyExc "IndexError") /\
  fst (latin_tokenize [] (RawStr s) true (Some latin) fresh)
    <> Raise (PyExc "AlignmentBoundsError").
Proof.
  intros s.
  split; [vm_compute; reflexivity|].
  split; [vm_compute; reflexivity|].
  split; [vm_compute; lia|].
  split; [vm_compute; reflexivity|].
  vm_compute. discriminate.
Qed.

(** ** Deduplication *)

Lemma has_form_occurrences n (toks : list Token) :
  length (List.filter (has_form n) toks) =
  occurrences n (omap tok_form toks).
Proof.
  unfold occurrences, has_form.
  induction toks as [|t toks IH]; [reflexivity|]. simpl.
  destruct (tok_form t) as [m|] eqn:E; simpl.
  - destruct (decide (m = n)) as [->|Hm].
    + rewrite (bool_decide_eq_true_2 (Some n = Some n) eq_refl),
        (bool_decide_eq_true_2 (n = n) eq_refl).
      simpl. f_equal. exact IH.
    + rewrite (bool_decide_eq_false_2 (Some m = Some n)),
        (bool_decide_eq_false_2 (m = n)) by congruence.
      exact IH.
  - exact IH.
Qed.

Section Dedup.
Context {U : UnicodeData} {F : Featurizer} {C : Connection}.

(** C5, as the code has it.  In a call that returns, the tokens
    resolved under one normalized form [n] all reference one and the same
    [FeatureSet] object and one and the same [Frequency] object, which is
    among the frequencies returned and belongs to that feature set.  The
    count of that [Frequency] is the number of occurrences of [n] in the
    whole normalized stream.  The number [k] of tokens resolved under [n]
    is the number of occurrences of [n] among the entries the loop
    consumed, so the count is [k] when the word-bearing display tokens
    are as many as the normalized entries. *)
Theorem tokenize_dedup raw record text rt toks freqs news rt' n :
  tokenize raw record text rt = (Ok (toks, freqs, news), rt') ->
  let normalized := normalized_stream raw in
  let consumed := word_bearing_count (List.map tok_display toks) in
  let k := length (List.filter (has_form n) toks) in
  (forall t1 t2, In t1 toks -> In t2 toks ->
     tok_form t1 = Some n -> tok_form t2 = Some n ->
     tok_feature_set t1 = tok_feature_set t2 /\
     tok_frequency t1 = tok_frequency t2) /\
  (forall t, In t toks -> tok_form t = Some n ->
     exists fq,
       tok_frequency t = Some fq /\ In fq freqs /\
       Some (freq_feature_set (val fq)) = tok_feature_set t /\
       freq_frequency (val fq) = Z.of_nat (occurrences n normalized)) /\
  k = occurrences n (take consumed normalized) /\
  (consumed = length normalized -> k = occurrences n normalized).
Proof.
  intros H normalized consumed k.
  apply tokenize_inv in H
    as (s & t & fz & st & -> & -> & _ & HI & -> & -> & -> & _).
  destruct HI as [Hdisp _ _ Hcur _ Hforms Htoks Hcache Hfreq].
  assert (Hres : forall t0, In t0 (tokens st) -> tok_form t0 = Some n ->
    exists fs fq, tok_feature_set t0 = Some fs /\
      tok_frequency t0 = Some fq /\
      feature_sets st !! n = Some fs /\
      assoc n (frequency_list st) = Some fq).
  { intros t0 Hin Hform. rewrite Forall_forall in Htoks.
    apply list_elem_of_In in Hin. specialize (Htoks t0 Hin).
    unfold resolved in Htoks. unfold tok_form in Hform.
    destruct (tok_feature_set t0) as [fs|]; [|discriminate].
    simpl in Hform. injection Hform as Hform. rewrite Hform in Htoks.
    destruct Htoks as (_ & Hc & fq & Hq & Ha). eauto 10. }
  assert (Hk : k = occurrences n (take consumed normalized)).
  { subst k consumed. rewrite has_form_occurrences, Hforms, Hdisp, Hcur.
    reflexivity. }
  split; [|split; [|split]].
  - intros t1 t2 Hin1 Hin2 Hf1 Hf2.
    destruct (Hres t1 Hin1 Hf1) as (fs1 & fq1 & -> & -> & Hc1 & Ha1).
    destruct (Hres t2 Hin2 Hf2) as (fs2 & fq2 & -> & -> & Hc2 & Ha2).
    split; congruence.
  - intros t0 Hin Hform.
    destruct (Hres t0 Hin Hform) as (fs & fq & Hfs & Hfq & Hc & Ha).
    exists fq. split; [assumption|].
    split; [eapply assoc_values; eassumption|].
    destruct (Hfreq n fq Ha) as (Hcount & _ & Hown).
    split; [congruence|].
    rewrite Hcount. apply Counter_count.
  - exact Hk.
  - intros Hall. rewrite Hk, Hall, firstn_all. reflexivity.
Qed.

End Dedup.

Lemma tokenize_dedup_witness :
  let r := latin_tokenize [] (RawStr (py "cano cano")) true (Some latin)
             fresh in
  let toks := tokens_of r in
  length (List.filter (has_form (py "cano")) toks) = 2 /\
  (forall t1 t2, In t1 toks -> In t2 toks ->
     tok_form t1 = Some (py "cano") -> tok_form t2 = Some (py "cano") ->
     tok_feature_set t1 = tok_feature_set t2 /\
     tok_frequency t1 = tok_frequency t2).
Proof.
  intros r toks. split; [vm_compute; reflexivity|].
  eapply (@tokenize_dedup ascii_tables lemma_featurizer (store [])
            (RawStr (py "cano cano")) true (Some latin) fresh
            toks (frequencies_of r) (new_feature_sets_of r) (snd r)
            (py "cano")).
  vm_compute. reflexivity.
Defined.

(** C5 as stated fails.  On ['1 a a'] the normalized stream is
    ['1', 'a', 'a'] and only the two ['a'] of the display stream are
    word-bearing; they are resolved under ['1'] and ['a'].  One token is
    resolved under ['a'], yet the count of its [Frequency] is 2; and the
    two tokens that display ['a'] reference different [FeatureSet]
    objects. *)
Lemma frequency_counts_whole_stream :
  let r := latin_tokenize [] (RawStr (py "1 a a")) true (Some latin) fresh in
  let toks := tokens_of r in
  let n := py "a" in
  List.map (fun t => (tok_display t, tok_form t)) toks =
    [(py "1", None); (py " ", None); (py "a", Some (py "1"));
     (py " ", None); (py "a", Some (py "a"))] /\
  length (List.filter (has_form n) toks) = 1 /\
  List.map (fun t => (fun fq => freq_frequency (val fq)) <$> tok_frequency t)
      (List.filter (has_form n) toks) = [Some 2%Z] /\
  List.map (fun t => oid <$> tok_feature_set t)
      (List.filter (fun t => bool_decide (tok_display t = n)) toks)
    = [Some 0; Some 2] /\
  ~ (forall t fq, In t toks -> tok_form t = Some n ->
       tok_frequency t = Some fq ->
       freq_frequency (val fq) =
         Z.of_nat (length (List.filter (has_form n) toks))).
Proof.
  intros r toks n.
  split; [vm_compute; reflexivity|].
  split; [vm_compute; reflexivity|].
  split; [vm_compute; reflexivity|].
  split; [vm_compute; reflexivity|].
  intros H.
  assert (Hlast : exists t, last toks = Some t /\ In t toks).
  { vm_compute. eexists. split; [reflexivity|]. do 4 right. left. reflexivity. }
  destruct Hlast as (t & Hlast & Hin).
  vm_compute in Hlast. injection Hlast as <-.
  specialize (H _ _ Hin eq_refl eq_refl).
  vm_compute in H. discriminate.
Qed.

(** ** The feature-set caches *)












Section LoopBlind.
Variables (text : option Text) (language : option str)
  (normalized : list str) (featurized : list FeatureBundle)
  (frequencies : gmap str Z) (base : nat).


End LoopBlind.

Section Resolution.
Context {U : UnicodeData} {F : Featurizer} {C : Connection}.


End Resolution.


(** ** The matcher consumes what it matches *)

Lemma plus_k_suffix {A} p (k : str -> option A) a : forall s,
  Re.plus_k p s k = Some a ->
  exists rest, k rest = Some a /\ length rest < length s.
Proof.
  induction s as [|c s IH]; simpl; [discriminate|].
  destruct (p c); [|discriminate].
  destruct (Re.plus_k p s k) as [a'|] eqn:E.
  - intros [= ->]. destruct (IH eq_refl) as (rest & Hk & Hlen).
    exists rest. split; [assumption | lia].
  - intros Hk. exists s. split; [assumption | lia].
Qed.

Lemma run_suffix {A} r : forall s (k : str -> option A) a,
  Re.run r s k = Some a ->
  exists rest, k rest = Some a /\ length rest <= length s /\
               (Re.consuming r = true -> length rest < length s).
Proof.
  induction r as [|p|p|r1 IH1 r2 IH2|r1 IH1 r2 IH2]; intros s k a; simpl.
  - intros Hk. exists s. split; [assumption|]. split; [lia | discriminate].
  - destruct s as [|c s]; [discriminate|].
    destruct (p c); [|discriminate].
    intros Hk. exists s. simpl. split; [assumption|]. split; lia.
  - intros H. apply plus_k_suffix in H as (rest & Hk & Hlen).
    exists rest. split; [assumption|]. split; lia.
  - intros H. apply IH1 in H as (mid & H & Hle1 & Hlt1).
    apply IH2 in H as (rest & Hk & Hle2 & Hlt2).
    exists rest. split; [assumption|]. split; [lia|].
    intros Hc. apply orb_true_iff in Hc as [Hc|Hc];
      [specialize (Hlt1 Hc) | specialize (Hlt2 Hc)]; lia.
  - destruct (Re.run r1 s k) as [a'|] eqn:E.
    + intros [= ->]. apply IH1 in E as (rest & Hk & Hle & Hlt).
      exists rest. split; [assumption|]. split; [lia|].
      intros Hc. apply andb_true_iff in Hc as [Hc _]. auto.
    + intros H. apply IH2 in H as (rest & Hk & Hle & Hlt).
      exists rest. split; [assumption|]. split; [lia|].
      intros Hc. apply andb_true_iff in Hc as [_ Hc]. auto.
Qed.

(** A pattern that cannot match the empty string has no empty match. *)
Lemma match_len_pos r s n :
  Re.consuming r = true -> Re.match_len r s = Some n -> 0 < n.
Proof.
  intros Hc H. unfold Re.match_len in H.
  apply run_suffix in H as (rest & [= <-] & _ & Hlt).
  specialize (Hlt Hc). lia.
Qed.

(** The patterns of the tokenizer are of that kind. *)
Lemma tokenizer_patterns_consuming `{U : UnicodeData} :
  Re.consuming split_pattern = true /\
  Re.consuming annotation = true /\
  Forall (fun r => Re.consuming r = true) display_pattern /\
  Re.consuming (Re.Cls (N.eqb 10)) = true /\
  Re.consuming (Re.Cls word_characters) = true.
Proof. repeat split; repeat constructor. Qed.

(** ** The scenarios of the specification *)

(** Scenario A: five tokens, three of them word-bearing, each with a
    feature set and a frequency of its own, count 1. *)
Example scenario_A :
  let r := latin_tokenize [] (RawStr (py "arma virumque cano")) true
             (Some latin) fresh in
  @normalized_stream ascii_tables (RawStr (py "arma virumque cano"))
    = [py "arma"; py "virumque"; py "cano"] /\
  List.map summary (tokens_of r) =
    [(0, py "arma", Some 0, Some 1); (1, py " ", None, None);
     (2, py "virumque", Some 2, Some 3); (3, py " ", None, None);
     (4, py "cano", Some 4, Some 5)] /\
  List.map (fun fq => freq_frequency (val fq)) (frequencies_of r)
    = [1; 1; 1]%Z /\
  length (new_feature_sets_of r) = 3.
Proof. repeat split; vm_compute; reflexivity. Qed.

(** Scenario B: the two occurrences of ['cano'] share one feature set and
    one frequency, count 2. *)
Example scenario_B :
  let r := latin_tokenize [] (RawStr (py "cano cano")) true
             (Some latin) fresh in
  List.map summary (tokens_of r) =
    [(0, py "cano", Some 0, Some 1); (1, py " ", None, None);
     (2, py "cano", Some 0, Some 1)] /\
  List.map (fun fq => (oid fq, freq_frequency (val fq))) (frequencies_of r)
    = [(1, 2%Z)] /\
  length (new_feature_sets_of r) = 1.
Proof. repeat split; vm_compute; reflexivity. Qed.

(** Scenario C: a stored feature set for ['cano'] is reused and nothing
    new is built. *)
Example scenario_C :
  let r := latin_tokenize [val cano_cached] (RawStr (py "cano cano")) true
             (Some latin) fresh in
  List.map (fun t => val <$> tok_feature_set t) (tokens_of r) =
    [Some (val cano_cached); None; Some (val cano_cached)] /\
  List.map summary (tokens_of r) =
    [(0, py "cano", Some 0, Some 1); (1, py " ", None, None);
     (2, py "cano", Some 0, Some 1)] /\
  new_feature_sets_of r = [].
Proof. repeat split; vm_compute; reflexivity. Qed.

(** The call of scenario A without the text: line 127 raises. *)
Example text_absent :
  latin_tokenize [] (RawStr (py "arma virumque cano")) true None fresh
  = (Raise AttributeError, fresh).
Proof. vm_compute. reflexivity. Qed.

(** [BaseTokenizer] itself has no featurizer. *)
Example base_class :
  fst (@tokenize ascii_tables base_featurizer (store [])
         (RawStr (py "arma")) true (Some latin) fresh)
  = Raise NotImplementedError.
Proof. vm_compute. reflexivity. Qed.

(** A list of strings passes [normalize] and stops at [re.sub]. *)
Example raw_list :
  fst (latin_tokenize [] (RawList [py "arma"; py "cano"]) true
         (Some latin) fresh)
  = Raise TypeError.
Proof. vm_compute. reflexivity. Qed.

(** A bundle that holds the key [form] stops the call at line 156, at the
    first token whose form is not stored; a stored form passes, since
    its bundle is never unpacked. *)
Example reserved_key :
  fst (@tokenize ascii_tables form_featurizer (store [])
         (RawStr (py "arma")) true (Some latin) fresh)
    = Raise TypeError /\
  fst (@tokenize ascii_tables form_featurizer (store [])
         (RawStr (py "a_b")) true (Some latin) fresh)
    = Raise TypeError /\
  List.map tok_form
    (tokens_of (@tokenize ascii_tables form_featurizer (store stored_cano)
                  (RawStr (py "cano")) true (Some latin) fresh))
    = [Some (py "cano")].
Proof. repeat split; vm_compute; reflexivity. Qed.

(** Of two stored entities with one form, line 128 keeps the later. *)
Example later_entity_kept :
  let older := {| fs_form := py "cano"; fs_language := Some (py "latin");
                  fs_features := [("lemmata"%string, py "canus")] |} in
  let r := latin_tokenize [older; val cano_cached] (RawStr (py "cano"))
             true (Some latin) fresh in
  List.map (fun tok => val <$> tok_feature_set tok) (tokens_of r)
    = [Some (val cano_cached)] /\
  val <$> (self_feature_sets (self (snd r)) !! py "cano")
    = Some (val cano_cached) /\
  new_feature_sets_of r = [].
Proof. repeat split; vm_compute; reflexivity. Qed.

(** ** Distinct forms, distinct objects *)

Section Fresh.
Variables (text : option Text) (language : option str)
  (normalized : list str) (featurized : list FeatureBundle)
  (frequencies : gmap str Z) (base : nat).

Lemma allocated_mono b b' st st' :
  b <= b' -> frequency_list st' = frequency_list st ->
  allocated b st -> allocated b' st'.
Proof.
  intros Hb Heq [Hlt Hnd]. unfold allocated. rewrite Heq. split; [|exact Hnd].
  eapply Forall_impl; [exact Hlt|]. simpl. intros p Hp. lia.
Qed.

Lemma allocated_snoc (b : nat) st st' (n : str) (v : Frequency) :
  frequency_list st' = frequency_list st ++ [(n, Obj b v)] ->
  allocated b st -> allocated (S b) st'.
Proof.
  intros Heq [Hlt Hnd]. unfold allocated. rewrite Heq. split.
  - apply Forall_app. split.
    + eapply Forall_impl; [exact Hlt|]. simpl. intros p Hp. lia.
    + constructor; [simpl; lia | constructor].
  - rewrite List.map_app. simpl. apply NoDup_app. split; [exact Hnd|].
    split; [|apply NoDup_singleton].
    intros x Hx Hx'. apply list_elem_of_singleton in Hx'. subst x.
    apply list_elem_of_In, in_map_iff in Hx as (p & Hp & Hin).
    rewrite Forall_forall in Hlt. apply list_elem_of_In in Hin.
    specialize (Hlt p Hin). simpl in Hlt. lia.
Qed.

Lemma loop_body_fresh i d st rt st' rt' :
  allocated (next_oid rt) st ->
  loop_body text language normalized featurized frequencies base
    i d st rt = (Ok st', rt') ->
  allocated (next_oid rt') st'.
Proof.
  intros Ha. destruct (word_bearing d) eqn:Hd.
  - rewrite loop_body_word by assumption.
    destruct (normalized !! norm_i st) as [n|]; [|discriminate].
    destruct (featurized !! norm_i st) as [f|]; [|discriminate].
    rewrite resolve_feature_set_run.
    destruct (feature_sets st !! n);
      [|destruct (admissible f); [|discriminate]]; cbv beta iota zeta;
      rewrite resolve_frequency_run;
      destruct (assoc n (frequency_list st)); cbv beta iota zeta;
      intros [= <- <-]; simpl.
    + eapply allocated_mono; [| |exact Ha]; [lia | reflexivity].
    + eapply allocated_snoc; [reflexivity | exact Ha].
    + eapply allocated_mono; [| |exact Ha]; [lia | reflexivity].
    + eapply allocated_snoc; [reflexivity|].
      eapply allocated_mono; [| |exact Ha]; [simpl; lia | reflexivity].
  - rewrite loop_body_other by assumption. intros [= <- <-].
    eapply allocated_mono; [| |exact Ha]; [lia | reflexivity].
Qed.

Lemma loop_fresh display : forall i st rt st' rt',
  allocated (next_oid rt) st ->
  loop text language normalized featurized frequencies base
    display i st rt = (Ok st', rt') ->
  allocated (next_oid rt') st'.
Proof.
  induction display as [|d display IH]; intros i st rt st' rt' Ha H;
    simpl in H.
  - injection H as <- <-. exact Ha.
  - apply bind_ok in H as (st1 & rt1 & Hb & H).
    eapply IH; [|exact H]. eapply loop_body_fresh; eassumption.
Qed.

End Fresh.

(** The frequencies a call returns are pairwise different objects: one
    per form, never one for two forms. *)
Lemma tokenize_frequencies_distinct
    `{U : UnicodeData} `{F : Featurizer} `{C : Connection}
    raw record text rt toks freqs news rt' :
  tokenize raw record text rt = (Ok (toks, freqs, news), rt') ->
  NoDup (List.map oid freqs).
Proof.
  intros H. apply tokenize_ok in H
    as (s & t & fz & found & objs & rt1 & st & rt2 & _ & _ & _ & _ & _
        & Hloop & _ & -> & _ & _).
  apply loop_fresh in Hloop as [_ Hnd].
  - rewrite List.map_map. exact Hnd.
  - split; [constructor | apply NoDup_nil_2].
Qed.

(** * The rest of the tokenizer *)

(** ** The matcher on the patterns of the tokenizer *)

Lemma match_len_cls p c s :
  Re.match_len (Re.Cls p) (c :: s) = if p c then Some 1 else None.
Proof.
  unfold Re.match_len. simpl. destruct (p c); [|reflexivity].
  f_equal. lia.
Qed.

Lemma match_len_cls_nil p : Re.match_len (Re.Cls p) [] = None.
Proof. reflexivity. Qed.

Lemma run_lit {A} (l : str) : forall s (k : str -> option A) a,
  Re.run (Re.lit l) s k = Some a ->
  s = l ++ drop (length l) s /\ k (drop (length l) s) = Some a.
Proof.
  induction l as [|c l IH]; intros s k a; simpl.
  - intros Hk. rewrite drop_0. auto.
  - destruct s as [|c' s]; [discriminate|].
    destruct (N.eqb_spec c c') as [->|Hne]; [|discriminate].
    intros H. apply IH in H as [Hs Hk]. simpl. split; [|assumption].
    f_equal. assumption.
Qed.

Lemma match_len_lit l s n :
  Re.match_len (Re.lit l) s = Some n -> n = length l /\ take n s = l.
Proof.
  unfold Re.match_len. intros H. apply run_lit in H as [Hs [= <-]].
  assert (Hlen : length l <= length s).
  { rewrite Hs, length_app. lia. }
  rewrite length_drop.
  replace (length s - (length s - length l)) with (length l) by lia.
  split; [reflexivity|].
  rewrite Hs. apply take_app_length.
Qed.

Lemma run_alt_None {A} r1 r2 s (k : str -> option A) :
  Re.run (Re.Alt r1 r2) s k = None ->
  Re.run r1 s k = None /\ Re.run r2 s k = None.
Proof. simpl. destruct (Re.run r1 s k); [discriminate | auto]. Qed.

(** Where the normalized split finds no delimiter, the character at hand
    is one the analysis keeps. *)
Lemma split_pattern_miss `{U : UnicodeData} c s :
  match Re.match_len split_pattern (c :: s) with
  | Some (S _) => False
  | _ => True
  end ->
  analysis_character c = true.
Proof.
  intros H.
  destruct (Re.match_len split_pattern (c :: s)) as [[|n]|] eqn:E;
    [| contradiction |].
  - apply match_len_pos in E; [lia | reflexivity].
  - unfold Re.match_len, split_pattern in E.
    do 4 (apply run_alt_None in E as [_ E]).
    unfold analysis_character.
    destruct (word_class c || member c diacriticals) eqn:Ec; [reflexivity|].
    cbn [Re.run] in E. rewrite Ec in E. discriminate.
Qed.

(** What the display split finds at a position: the separator, one
    character that is no word character, or nothing at a word
    character. *)
Lemma display_pattern_at c s :
  match Re.first_group display_pattern (c :: s) with
  | Some (g, S n) =>
      g < 2 /\
      (take (S n) (c :: s) = py " / " \/
       (n = 0 /\ word_characters c = false))
  | _ => word_characters c = true
  end.
Proof.
  unfold display_pattern. cbn [Re.first_group].
  destruct (Re.match_len (Re.lit (py " / ")) (c :: s)) as [n|] eqn:E1.
  - apply match_len_lit in E1 as [-> Ht].
    change (length (py " / ")) with 3 in *. split; [lia | auto].
  - rewrite match_len_cls.
    destruct (word_characters c); simpl; [reflexivity|].
    split; [lia | auto].
Qed.

(** ** The normalized stream *)

Lemma split_from_kept `{U : UnicodeData} s : forall skip piece,
  Forall (fun c => analysis_character c = true) piece ->
  Forall (Forall (fun c => analysis_character c = true))
    (Re.split_from split_pattern s skip piece).
Proof.
  induction s as [|c s IH]; intros skip piece Hp; simpl.
  - constructor; [assumption | constructor].
  - destruct skip as [|k]; [|apply IH; assumption].
    pose proof (split_pattern_miss c s) as Hm.
    destruct (Re.match_len split_pattern (c :: s)) as [[|n]|].
    + apply IH. apply Forall_app. split; [assumption|].
      constructor; [auto | constructor].
    + constructor; [assumption|]. apply IH. constructor.
    + apply IH. apply Forall_app. split; [assumption|].
      constructor; [auto | constructor].
Qed.

(** X7. Every entry of the normalized stream is non-empty and made of
    characters the split keeps, [\w] and the eight diacriticals: no
    delimiter, blank or punctuation mark survives in a normalized token. *)
Theorem normalized_stream_tokens `{U : UnicodeData} (raw : raw_text) :
  Forall (fun n => n <> [] /\
                   Forall (fun c => analysis_character c = true) n)
    (normalized_stream raw).
Proof.
  unfold normalized_stream. apply Forall_forall. intros n Hn.
  apply list_elem_of_In, filter_In in Hn as [Hin Ht].
  split; [intros ->; discriminate|].
  pose proof (split_from_kept (normalize raw) 0 [] ltac:(constructor)) as H.
  rewrite Forall_forall in H. apply H, list_elem_of_In. exact Hin.
Qed.

(** ** The display stream *)

Lemma truthy_items_cons (x : option str) l :
  truthy_items (x :: l) =
  match x with
  | Some (c :: s) => (c :: s) :: truthy_items l
  | _ => truthy_items l
  end.
Proof. destruct x as [[|c s]|]; reflexivity. Qed.

Lemma truthy_items_app l1 l2 :
  truthy_items (l1 ++ l2) = truthy_items l1 ++ truthy_items l2.
Proof. apply omap_app. Qed.

Lemma truthy_items_groups g (m : str) :
  g < 2 ->
  truthy_items (Re.groups 2 g m) = match m with [] => [] | _ => [m] end.
Proof.
  intros Hg. destruct g as [|[|g]]; [| |lia]; destruct m; reflexivity.
Qed.

Lemma concat_truthy_items_cons (piece : str) l :
  concat (truthy_items (Some piece :: l)) = piece ++ concat (truthy_items l).
Proof. rewrite truthy_items_cons. destruct piece; reflexivity. Qed.

Lemma display_split_concat s : forall skip piece,
  concat (truthy_items (Re.split_groups_from display_pattern s skip piece))
  = piece ++ drop skip s.
Proof.
  induction s as [|c s IH]; intros skip piece; cbn [Re.split_groups_from].
  - rewrite drop_nil. destruct piece; simpl; rewrite ?app_nil_r; reflexivity.
  - destruct skip as [|k]; [|apply IH].
    pose proof (display_pattern_at c s) as Hat.
    destruct (Re.first_group display_pattern (c :: s)) as [[g [|n]]|].
    + rewrite IH, drop_0, <- app_assoc. reflexivity.
    + destruct Hat as [Hg _].
      rewrite concat_truthy_items_cons, truthy_items_app, concat_app.
      rewrite truthy_items_groups by assumption.
      rewrite IH. simpl. rewrite app_nil_r. simpl.
      rewrite take_drop. reflexivity.
    + rewrite IH, drop_0, <- app_assoc. reflexivity.
Qed.

(** X4. The display split loses nothing: the display tokens, joined in
    order, are the raw string as lines 116 and 117 have rewritten it
    (annotations removed, every newline replaced by [' / ']). *)
Theorem display_stream_concat `{U : UnicodeData} (raw : str) :
  concat (display_stream raw) = display_text raw.
Proof.
  unfold display_stream, Re.split_groups.
  rewrite display_split_concat. reflexivity.
Qed.

Lemma word_bearing_letters c d :
  word_characters c = true -> word_bearing (c :: d) = true.
Proof.
  intros Hc. unfold word_bearing. simpl.
  rewrite match_len_cls, Hc. reflexivity.
Qed.

Lemma word_bearing_single c :
  word_characters c = false -> word_bearing [c] = false.
Proof.
  intros Hc. unfold word_bearing. simpl.
  rewrite match_len_cls, Hc. reflexivity.
Qed.

Lemma display_split_shapes s : forall skip piece,
  Forall (fun c => word_characters c = true) piece ->
  Forall (fun d => d <> [] /\ display_token_shape d)
    (truthy_items (Re.split_groups_from display_pattern s skip piece)).
Proof.
  assert (Hpiece : forall piece l,
    Forall (fun c => word_characters c = true) piece ->
    Forall (fun d => d <> [] /\ display_token_shape d) (truthy_items l) ->
    Forall (fun d => d <> [] /\ display_token_shape d)
      (truthy_items (Some piece :: l))).
  { intros piece l Hp Hl. rewrite truthy_items_cons.
    destruct piece as [|c p]; [assumption|].
    constructor; [|assumption]. split; [discriminate|].
    unfold display_token_shape.
    rewrite word_bearing_letters by (inversion Hp; assumption).
    assumption. }
  induction s as [|c s IH]; intros skip piece Hp; cbn [Re.split_groups_from].
  - apply Hpiece; [assumption | constructor].
  - destruct skip as [|k]; [|apply IH; assumption].
    pose proof (display_pattern_at c s) as Hat.
    destruct (Re.first_group display_pattern (c :: s)) as [[g [|n]]|].
    + apply IH. apply Forall_app. split; [assumption|].
      constructor; [assumption | constructor].
    + destruct Hat as [Hg Hm]. apply Hpiece; [assumption|].
      rewrite truthy_items_app, truthy_items_groups by assumption.
      apply Forall_app. split; [|apply IH; constructor].
      remember (take (S n) (c :: s)) as m eqn:Em.
      destruct Hm as [Hsep | [-> Hc]].
      * rewrite Hsep. constructor; [|constructor].
        split; [discriminate|]. left. reflexivity.
      * subst m. simpl. rewrite take_0. constructor; [|constructor].
        split; [discriminate|]. unfold display_token_shape.
        rewrite word_bearing_single by assumption. right. eauto.
    + apply IH. apply Forall_app. split; [assumption|].
      constructor; [assumption | constructor].
Qed.

(** X6. Every display token is non-empty and of one of three shapes: a
    word-bearing token is a run of word characters [a-zA-Z] and nothing
    else; any other token is the separator [' / '] or a single character
    that is no word character. *)
Theorem display_stream_shapes `{U : UnicodeData} (raw : str) :
  Forall (fun d => d <> [] /\ display_token_shape d) (display_stream raw).
Proof.
  unfold display_stream, Re.split_groups.
  apply display_split_shapes. constructor.
Qed.

(** ** The ledger of a call *)

Lemma assoc_key {V} n (d : list (str * V)) :
  match assoc n d with
  | Some _ => In n (List.map fst d)
  | None => ~ In n (List.map fst d)
  end.
Proof.
  induction d as [|[k v] d IH]; simpl; [tauto|].
  destruct (decide (k = n)) as [->|Hk]; [auto|].
  destruct (assoc n d); [auto | tauto].
Qed.

Lemma assoc_of_In {V} n (v : V) (d : list (str * V)) :
  NoDup (List.map fst d) -> In (n, v) d -> assoc n d = Some v.
Proof.
  induction d as [|[k w] d IH]; simpl; [tauto|].
  intros Hnd [[= -> ->]|Hin].
  - apply decide_True. reflexivity.
  - apply NoDup_cons in Hnd as [Hk Hnd].
    destruct (decide (k = n)) as [->|Hne]; [|auto].
    exfalso. apply Hk, list_elem_of_In.
    apply (in_map fst) in Hin. exact Hin.
Qed.

Lemma first_occurrences_snoc l n :
  first_occurrences (l ++ [n]) =
  if bool_decide (n ∈ first_occurrences l)
  then first_occurrences l
  else first_occurrences l ++ [n].
Proof. unfold first_occurrences. rewrite foldl_snoc. reflexivity. Qed.

Lemma first_occurrences_spec l :
  NoDup (first_occurrences l) /\
  forall n, In n (first_occurrences l) <-> In n l.
Proof.
  induction l as [|x l [Hnd Hin]] using rev_ind.
  - split; [apply NoDup_nil_2 | reflexivity].
  - rewrite first_occurrences_snoc.
    destruct (bool_decide_reflect (x ∈ first_occurrences l)) as [Hx|Hx].
    + split; [assumption|]. intros n. rewrite in_app_iff, Hin. simpl.
      split; [auto|]. intros [H|[<-|[]]]; [assumption|].
      apply Hin, list_elem_of_In. assumption.
    + split.
      * apply NoDup_app. split; [assumption|].
        split; [|apply NoDup_singleton].
        intros n Hn Hn'. apply list_elem_of_singleton in Hn'. subst n. auto.
      * intros n. rewrite !in_app_iff, Hin. reflexivity.
Qed.

Section LedgerProofs.
Variables (text : option Text) (language : option str)
  (normalized : list str) (featurized : list FeatureBundle)
  (frequencies : gmap str Z) (base : nat)
  (seed : gmap str (obj FeatureSet)).

Abbreviation ledger := (Ledger seed language normalized featurized).

Lemma new_entry_step fsets fsets' cursor fs :
  (forall k v, fsets !! k = Some v -> fsets' !! k = Some v) ->
  new_entry seed language normalized featurized fsets cursor fs ->
  new_entry seed language normalized featurized fsets' (S cursor) fs.
Proof.
  intros Hext (Hs & Hc & Hl & j & Hj & Hn & Hf & Hfirst).
  repeat split; auto. exists j. repeat split; auto.
Qed.

Lemma cache_ledger_step n f st rt fs fsets news rt1 :
  normalized !! norm_i st = Some n ->
  featurized !! norm_i st = Some f ->
  cache_ledger seed language normalized featurized
    (feature_sets st) (new_feature_sets st) (norm_i st) ->
  resolve_feature_set language n f st rt = (Ok (fs, fsets, news), rt1) ->
  cache_ledger seed language normalized featurized fsets news
    (S (norm_i st)).
Proof.
  intros Hn Hf [Hseed Hcache Hnew Hforms Hcons].
  rewrite resolve_feature_set_run.
  assert (Htake : take (S (norm_i st)) normalized =
                  take (norm_i st) normalized ++ [n])
    by (apply take_S_r; assumption).
  destruct (feature_sets st !! n) as [cached|] eqn:E;
    [|destruct (admissible f); [|discriminate]]; cbv beta iota zeta;
    intros [= <- <- <- <-].
  - constructor; try assumption.
    + eapply Forall_impl; [exact Hnew|]. intros e.
      apply new_entry_step. auto.
    + intros k. rewrite Htake, in_app_iff. intros [Hk|[<-|[]]]; [auto|].
      rewrite E. eauto.
  - set (fs := Obj (next_oid rt)
                 {| fs_form := n; fs_language := language;
                    fs_features := f |}).
    assert (Hext : forall k v, feature_sets st !! k = Some v ->
                     <[n:=fs]> (feature_sets st) !! k = Some v).
    { intros k v Hk. rewrite lookup_insert_ne; [assumption|].
      intros ->. congruence. }
    constructor.
    + intros k v Hk. apply Hext, Hseed, Hk.
    + intros k v. rewrite lookup_insert. case_decide as Hk.
      * intros [= <-]. right. apply in_app_iff. right. left. reflexivity.
      * intros Hv. destruct (Hcache k v Hv); [auto|].
        right. apply in_app_iff. auto.
    + apply Forall_app. split.
      * eapply Forall_impl; [exact Hnew|]. intros e.
        apply new_entry_step. exact Hext.
      * constructor; [|constructor]. unfold new_entry. simpl.
        split.
        { destruct (seed !! n) as [v|] eqn:Es; [|reflexivity].
          apply Hseed in Es. congruence. }
        split; [apply lookup_insert_eq|]. split; [reflexivity|].
        exists (norm_i st). repeat split; auto.
        intros Hin. destruct (Hcons n Hin) as [v Hv]. congruence.
    + rewrite List.map_app. simpl. apply NoDup_app.
      split; [assumption|]. split; [|apply NoDup_singleton].
      intros k Hk Hk'. apply list_elem_of_singleton in Hk'. subst k.
      apply list_elem_of_In, in_map_iff in Hk as (e & He & Hin).
      rewrite Forall_forall in Hnew. apply list_elem_of_In in Hin.
      destruct (Hnew e Hin) as (_ & Hc & _). rewrite He in Hc. congruence.
    + intros k. rewrite Htake, in_app_iff. intros [Hk|[<-|[]]].
      * destruct (Hcons k Hk) as [v Hv]. exists v. apply Hext, Hv.
      * exists fs. apply lookup_insert_eq.
Qed.

Lemma keys_ledger_step n fs st rt fq flist rt1 :
  normalized !! norm_i st = Some n ->
  keys_ledger normalized (frequency_list st) (norm_i st) ->
  resolve_frequency text frequencies n fs st rt = (Ok (fq, flist), rt1) ->
  keys_ledger normalized flist (S (norm_i st)).
Proof.
  unfold keys_ledger. intros Hn Hkeys. rewrite resolve_frequency_run.
  rewrite (take_S_r _ _ _ Hn), first_occurrences_snoc, <- Hkeys.
  pose proof (assoc_key n (frequency_list st)) as Hk.
  destruct (assoc n (frequency_list st)) as [fq0|]; cbv beta iota zeta;
    intros [= <- <- <-].
  - rewrite bool_decide_eq_true_2; [reflexivity|].
    apply list_elem_of_In. exact Hk.
  - rewrite bool_decide_eq_false_2;
      [|intros H; apply Hk, list_elem_of_In, H].
    rewrite List.map_app. reflexivity.
Qed.

Lemma loop_body_ledger i d st rt st' rt' :
  ledger st ->
  loop_body text language normalized featurized frequencies base
    i d st rt = (Ok st', rt') ->
  ledger st'.
Proof.
  intros [Hc Hk]. destruct (word_bearing d) eqn:Hd.
  - rewrite loop_body_word by assumption.
    destruct (normalized !! norm_i st) as [n|] eqn:En; [|discriminate].
    destruct (featurized !! norm_i st) as [f|] eqn:Ef; [|discriminate].
    destruct (resolve_feature_set language n f st rt)
      as [[[[fs fsets] news]|e] rt1] eqn:R1; [|discriminate].
    destruct (resolve_frequency text frequencies n fs st rt1)
      as [[[fq flist]|e] rt2] eqn:R2; [|discriminate].
    intros [= <- <-]. split; simpl; rewrite Nat.add_1_r.
    + eapply cache_ledger_step; eassumption.
    + eapply keys_ledger_step; eassumption.
  - rewrite loop_body_other by assumption. intros [= <- <-].
    split; assumption.
Qed.

Lemma loop_ledger display : forall i st rt st' rt',
  ledger st ->
  loop text language normalized featurized frequencies base
    display i st rt = (Ok st', rt') ->
  ledger st'.
Proof.
  induction display as [|d display IH]; intros i st rt st' rt' Hl H;
    simpl in H.
  - injection H as <- <-. exact Hl.
  - apply bind_ok in H as (st1 & rt1 & Hb & H).
    eapply IH; [|exact H]. eapply loop_body_ledger; eassumption.
Qed.

Lemma entry_ledger : ledger (entry seed).
Proof.
  split; [constructor|]; simpl.
  - auto.
  - auto.
  - constructor.
  - apply NoDup_nil_2.
  - intros n [].
  - reflexivity.
Qed.

End LedgerProofs.

Lemma mapM_new_vals {A} (l : list A) : forall rt objs rt1,
  mapM new l rt = (Ok objs, rt1) -> List.map val objs = l.
Proof.
  induction l as [|x l IH]; intros rt objs rt1; simpl.
  - intros [= <- <-]. reflexivity.
  - intros H. apply bind_ok in H as (o & r0 & Ho & H).
    injection Ho as <- <-.
    apply bind_ok in H as (os & r1 & Hos & H). injection H as <- <-.
    simpl. f_equal. eapply IH. exact Hos.
Qed.

Lemma by_form_acc_In (l : list (obj FeatureSet)) :
  forall (m : gmap str (obj FeatureSet)) n fs,
  foldl (fun m fs => <[fs_form (val fs) := fs]> m) m l !! n = Some fs ->
  m !! n = Some fs \/ In fs l.
Proof.
  induction l as [|o l IH]; intros m n fs; simpl; [auto|].
  intros H. apply IH in H as [H|H]; [|auto].
  rewrite lookup_insert in H. case_decide; [|auto].
  injection H as <-. auto.
Qed.

Lemma by_form_acc_None (l : list (obj FeatureSet)) :
  forall (m : gmap str (obj FeatureSet)) n,
  foldl (fun m fs => <[fs_form (val fs) := fs]> m) m l !! n = None <->
  m !! n = None /\ ~ In n (List.map (fun o => fs_form (val o)) l).
Proof.
  induction l as [|o l IH]; intros m n; simpl; [tauto|].
  rewrite IH, lookup_insert. case_decide as Hk.
  - split; [intros [[=] _] | intros [_ H]; tauto].
  - tauto.
Qed.

Lemma by_form_In l n fs : by_form l !! n = Some fs -> In fs l.
Proof.
  intros H. apply by_form_acc_In in H as [H|H]; [|exact H].
  rewrite lookup_empty in H. discriminate.
Qed.

Lemma by_form_None l n :
  by_form l !! n = None <-> ~ In n (List.map (fun o => fs_form (val o)) l).
Proof.
  unfold by_form. rewrite by_form_acc_None, lookup_empty. tauto.
Qed.

Section CallLedger.
Context {U : UnicodeData} {F : Featurizer} {C : Connection}.

(** A call that returns, with everything its loop has kept. *)
Lemma tokenize_ledger raw record text rt toks freqs news rt' :
  tokenize raw record text rt = (Ok (toks, freqs, news), rt') ->
  exists s t fz found objs st,
    raw = RawStr s /\ text = Some t /\
    featurize (normalized_stream raw) = Ok fz /\
    find "feature_sets" (text_language t) = Ok found /\
    List.map val objs = found /\
    Inv text (normalized_stream raw) fz (Counter (normalized_stream raw))
      (length (self_tokens (self rt))) (display_stream s) st /\
    Ledger (by_form objs) (text_language t) (normalized_stream raw) fz st /\
    toks = tokens st /\
    freqs = List.map snd (frequency_list st) /\
    news = new_feature_sets st /\
    self rt' =
      if record then
        {| self_tokens := self_tokens (self rt) ++ toks;
           self_frequencies :=
             counter_update (delete [] (self_frequencies (self rt)))
               (Counter (normalized_stream raw));
           self_feature_sets :=
             feature_sets st ∪ self_feature_sets (self rt) |}
      else self rt.
Proof.
  intros H. apply tokenize_ok in H
    as (s & t & fz & found & objs & rt1 & st & rt2 & -> & -> & Hfz & Hfound
        & Hobjs & Hloop & -> & -> & -> & ->).
  apply mapM_new_keeps in Hobjs as Hself1.
  apply mapM_new_vals in Hobjs as Hvals.
  pose proof (keeps_loop (Some t) (text_language t)
    (normalized_stream (RawStr s)) fz
    (Counter (normalized_stream (RawStr s)))
    (length (self_tokens (self rt1))) (display_stream s) 0
    (entry (by_form objs)) rt1) as Hself2.
  rewrite Hloop in Hself2. simpl in Hself2.
  pose proof Hloop as Hled.
  apply (loop_ledger _ _ _ _ _ _ (by_form objs)) in Hled;
    [|apply entry_ledger].
  apply (loop_inv _ _ _ _ _ _ _ []) in Hloop; [|apply entry_inv].
  simpl in Hloop. rewrite Hself1 in Hloop.
  exists s, t, fz, found, objs, st.
  repeat (split; [first [reflexivity | assumption]|]).
  destruct record; [|congruence].
  unfold record_call. simpl. rewrite Hself2, Hself1.
  destruct (self_frequencies (self rt) !! []) eqn:E; [reflexivity|].
  rewrite delete_id by assumption. reflexivity.
Qed.

End CallLedger.

(** ** Which calls return *)

Section LoopOutcome.
Variables (text : option Text) (language : option str)
  (normalized : list str) (featurized : list FeatureBundle)
  (frequencies : gmap str Z) (base : nat)
  (seed : gmap str (obj FeatureSet)).

(** A form the per-call dictionary holds is a form of the seed or occurs
    before the cursor. *)
Lemma cached_form_seen pre st n fs :
  Inv text normalized featurized frequencies base pre st ->
  Ledger seed language normalized featurized st ->
  feature_sets st !! n = Some fs ->
  seed !! n = None ->
  In n (take (norm_i st) normalized).
Proof.
  intros [_ _ _ _ _ _ _ Hkeyed _] [[_ Hcache Hnew _ _] _] E Hs.
  destruct (Hcache n fs E) as [H|H]; [congruence|].
  rewrite Forall_forall in Hnew. apply list_elem_of_In in H.
  destruct (Hnew fs H) as (_ & _ & _ & j & Hj & Hn & _).
  rewrite (Hkeyed n fs E) in Hn.
  apply list_elem_of_In, (list_elem_of_lookup_2 _ j).
  rewrite lookup_take_lt by assumption. exact Hn.
Qed.

(** A turn that returns has unpacked an admissible bundle, or none. *)
Lemma loop_body_unpacked pre i d st rt st' rt' :
  Inv text normalized featurized frequencies base pre st ->
  Ledger seed language normalized featurized st ->
  unpacked seed normalized featurized (norm_i st) ->
  loop_body text language normalized featurized frequencies base
    i d st rt = (Ok st', rt') ->
  unpacked seed normalized featurized (norm_i st').
Proof.
  intros HI HL Hu. destruct (word_bearing d) eqn:Hd.
  - rewrite loop_body_word by assumption.
    destruct (normalized !! norm_i st) as [n|] eqn:En; [|discriminate].
    destruct (featurized !! norm_i st) as [f|] eqn:Ef; [|discriminate].
    rewrite resolve_feature_set_run.
    destruct (feature_sets st !! n) as [cached|] eqn:E.
    + cbv beta iota zeta. rewrite resolve_frequency_run.
      destruct (assoc n (frequency_list st)); cbv beta iota zeta;
        intros [= <- <-]; simpl; intros j n' f' Hj Hn' Hs Hfirst Hf';
        (destruct (decide (j = norm_i st)) as [->|Hne];
           [|apply (Hu j n' f'); [lia|assumption..]]);
        rewrite En in Hn'; injection Hn' as <-;
        exfalso; apply Hfirst; eapply cached_form_seen; eassumption.
    + destruct (admissible f) eqn:Ea; [|discriminate].
      cbv beta iota zeta. rewrite resolve_frequency_run.
      destruct (assoc n (frequency_list st)); cbv beta iota zeta;
        intros [= <- <-]; simpl; intros j n' f' Hj Hn' Hs Hfirst Hf';
        (destruct (decide (j = norm_i st)) as [->|Hne];
           [|apply (Hu j n' f'); [lia|assumption..]]);
        rewrite Ef in Hf'; injection Hf' as <-; exact Ea.
  - rewrite loop_body_other by assumption. intros [= <- <-]. exact Hu.
Qed.

(** A turn that raises: the cursor has left one of the two streams, or
    line 156 was reached with a bundle that holds a reserved key. *)
Lemma loop_body_raise_at i d st rt e rt' :
  Ledger seed language normalized featurized st ->
  loop_body text language normalized featurized frequencies base
    i d st rt = (Raise e, rt') ->
  word_bearing d = true /\
  ((e = IndexError /\
    (length normalized <= norm_i st \/ length featurized <= norm_i st)) \/
   (e = TypeError /\
    exists n f,
      normalized !! norm_i st = Some n /\
      seed !! n = None /\
      ~ In n (take (norm_i st) normalized) /\
      featurized !! norm_i st = Some f /\
      admissible f = false)).
Proof.
  intros [[Hseed _ _ _ Hcons] _]. destruct (word_bearing d) eqn:Hd.
  - rewrite loop_body_word by assumption.
    intros H. split; [reflexivity|]. revert H.
    destruct (normalized !! norm_i st) as [n|] eqn:En.
    2:{ intros [= <- <-]. left. split; [reflexivity|]. left.
        apply lookup_ge_None. exact En. }
    destruct (featurized !! norm_i st) as [f|] eqn:Ef.
    2:{ intros [= <- <-]. left. split; [reflexivity|]. right.
        apply lookup_ge_None. exact Ef. }
    rewrite resolve_feature_set_run.
    destruct (feature_sets st !! n) as [cached|] eqn:E.
    + cbv beta iota zeta. rewrite resolve_frequency_run.
      destruct (assoc n (frequency_list st)); discriminate.
    + destruct (admissible f) eqn:Ea.
      * cbv beta iota zeta. rewrite resolve_frequency_run.
        destruct (assoc n (frequency_list st)); discriminate.
      * intros [= <- <-]. right. split; [reflexivity|]. exists n, f.
        split; [reflexivity|]. split.
        { destruct (seed !! n) as [v|] eqn:Es; [|reflexivity].
          apply Hseed in Es. congruence. }
        split.
        { intros Hin. destruct (Hcons n Hin) as [v Hv]. congruence. }
        split; [reflexivity | exact Ea].
  - rewrite loop_body_other by assumption. discriminate.
Qed.

(** The three outcomes of the loop, each with what brings it about. *)
Lemma loop_outcome display : forall pre st rt,
  Inv text normalized featurized frequencies base pre st ->
  Ledger seed language normalized featurized st ->
  unpacked seed normalized featurized (norm_i st) ->
  match
    loop text language normalized featurized frequencies base
      display (length pre) st rt
  with
  | (Ok _, _) =>
      norm_i st + word_bearing_count display <= length normalized /\
      norm_i st + word_bearing_count display <= length featurized /\
      unpacked seed normalized featurized
        (norm_i st + word_bearing_count display)
  | (Raise e, _) =>
      (e = IndexError /\
       (length normalized < norm_i st + word_bearing_count display \/
        length featurized < norm_i st + word_bearing_count display) /\
       unpacked seed normalized featurized
         (min (length normalized) (length featurized)))
      \/
      (e = TypeError /\
       exists j n f,
         j < norm_i st + word_bearing_count display /\
         normalized !! j = Some n /\
         seed !! n = None /\
         ~ In n (take j normalized) /\
         featurized !! j = Some f /\
         admissible f = false)
  end.
Proof.
  induction display as [|d display IH]; intros pre st rt HI HL Hu.
  - simpl. unfold word_bearing_count. simpl. rewrite Nat.add_0_r.
    destruct HI as [_ _ _ _ [Hb1 Hb2] _ _ _ _]. auto.
  - assert (Hc : word_bearing_count (d :: display) =
                 (if word_bearing d then 1 else 0)
                 + word_bearing_count display).
    { unfold word_bearing_count. simpl.
      destruct (word_bearing d); reflexivity. }
    rewrite Hc. cbn [loop]. rewrite bind_run.
    destruct (loop_body text language normalized featurized frequencies
                base (length pre) d st rt) as [[st1|e] rt1] eqn:Hb.
    + assert (HI1 : Inv text normalized featurized frequencies base
                      (pre ++ [d]) st1)
        by (eapply loop_body_inv; eassumption).
      assert (HL1 : Ledger seed language normalized featurized st1)
        by (eapply loop_body_ledger; eassumption).
      assert (Hu1 : unpacked seed normalized featurized (norm_i st1))
        by exact (loop_body_unpacked pre _ d st rt st1 rt1 HI HL Hu Hb).
      assert (Hn1 : norm_i st1 =
                    norm_i st + (if word_bearing d then 1 else 0)).
      { destruct HI as [_ _ _ Hcur _ _ _ _ _].
        destruct HI1 as [_ _ _ Hcur1 _ _ _ _ _].
        rewrite Hcur1, Hcur. apply word_bearing_count_snoc. }
      specialize (IH (pre ++ [d]) st1 rt1 HI1 HL1 Hu1).
      rewrite length_app in IH. cbn [length] in IH.
      rewrite Nat.add_1_r, Hn1, <- Nat.add_assoc in IH. exact IH.
    + apply loop_body_raise_at in Hb as (Hd & Hb); [|exact HL].
      rewrite Hd. destruct HI as [_ _ _ _ [Hb1 Hb2] _ _ _ _].
      destruct Hb as [(-> & Hlen)|(-> & n & f & Hn & Hs & Hfirst & Hf & Ha)].
      * left. split; [reflexivity|]. split; [lia|].
        replace (min (length normalized) (length featurized))
          with (norm_i st) by lia.
        exact Hu.
      * right. split; [reflexivity|]. exists (norm_i st), n, f.
        split; [lia|]. auto.
Qed.

End LoopOutcome.

(** What line 128 keeps of two stored entities with one form. *)
Lemma by_form_acc_last (l : list (obj FeatureSet)) :
  forall (m : gmap str (obj FeatureSet)) n,
  foldl (fun m fs => <[fs_form (val fs) := fs]> m) m l !! n =
  match
    last (List.filter (fun o => bool_decide (fs_form (val o) = n)) l)
  with
  | Some o => Some o
  | None => m !! n
  end.
Proof.
  induction l as [|o l IH]; intros m n; simpl; [reflexivity|].
  rewrite IH. destruct (decide (fs_form (val o) = n)) as [Ho|Ho].
  - rewrite bool_decide_eq_true_2 by assumption. rewrite last_cons.
    destruct (last _); [reflexivity|]. rewrite Ho. apply lookup_insert_eq.
  - rewrite bool_decide_eq_false_2 by assumption.
    destruct (last _); [reflexivity|]. apply lookup_insert_ne. exact Ho.
Qed.

Lemma filter_map_val (p : FeatureSet -> bool) (l : list (obj FeatureSet)) :
  List.filter p (List.map val l) =
  List.map val (List.filter (fun o => p (val o)) l).
Proof.
  induction l as [|o l IH]; simpl; [reflexivity|].
  rewrite IH. destruct (p (val o)); reflexivity.
Qed.

Lemma by_form_kept objs n fs :
  by_form objs !! n = Some fs ->
  kept (List.map val objs) n = Some (val fs).
Proof.
  unfold by_form, kept. rewrite by_form_acc_last, lookup_empty.
  rewrite filter_map_val, map_fmap, fmap_last.
  destruct (last _) as [o|]; [|discriminate].
  intros [= ->]. reflexivity.
Qed.

Lemma stored_forms objs found :
  List.map val objs = found ->
  forall n, by_form objs !! n = None <-> ~ In n (List.map fs_form found).
Proof.
  intros <- n. rewrite by_form_None, List.map_map. tauto.
Qed.

Lemma unpackable_spec found objs normalized fz w :
  List.map val objs = found ->
  unpackable found normalized fz w = true <->
  unpacked (by_form objs) normalized fz w.
Proof.
  intros Hvals. pose proof (stored_forms objs found Hvals) as Hst.
  unfold unpackable, unpacked. rewrite forallb_forall. split.
  - intros H j n f Hj Hn Hs Hfirst Hf.
    assert (Hin : In j (seq 0 w)) by (apply in_seq; lia).
    specialize (H j Hin). unfold builds_at in H. rewrite Hn, Hf in H.
    destruct (bool_decide (n ∈ List.map fs_form found)) eqn:E1.
    { apply bool_decide_eq_true in E1. apply list_elem_of_In in E1.
      apply Hst in Hs. contradiction. }
    destruct (bool_decide (n ∈ take j normalized)) eqn:E2.
    { apply bool_decide_eq_true in E2. apply list_elem_of_In in E2.
      contradiction. }
    exact H.
  - intros H j Hj. apply in_seq in Hj. unfold builds_at.
    destruct (normalized !! j) as [n|] eqn:En; [|reflexivity].
    destruct (fz !! j) as [f|] eqn:Ef; [|apply orb_true_r].
    destruct (bool_decide (n ∈ List.map fs_form found)) eqn:E1;
      [reflexivity|].
    destruct (bool_decide (n ∈ take j normalized)) eqn:E2; [reflexivity|].
    simpl. apply (H j n f); try assumption; [lia| |].
    + apply Hst. apply bool_decide_eq_false in E1.
      rewrite <- list_elem_of_In. exact E1.
    + apply bool_decide_eq_false in E2.
      rewrite <- list_elem_of_In. exact E2.
Qed.

Lemma unpackable_admissible found normalized fz w :
  Forall (fun f => admissible f = true) fz ->
  unpackable found normalized fz w = true.
Proof.
  intros Hadm. unfold unpackable. apply forallb_forall. intros j _.
  destruct (fz !! j) as [f|] eqn:Ef; [|apply orb_true_r].
  rewrite Forall_forall in Hadm.
  rewrite (Hadm f (list_elem_of_lookup_2 _ _ _ Ef)). apply orb_true_r.
Qed.

Section CallOutcome.
Context {U : UnicodeData} {F : Featurizer} {C : Connection}.

(** The three outcomes of a call that reaches its loop. *)
Lemma tokenize_outcome s record t rt fz found :
  featurize (normalized_stream (RawStr s)) = Ok fz ->
  find "feature_sets" (text_language t) = Ok found ->
  let normalized := normalized_stream (RawStr s) in
  let w := word_bearing_count (display_stream s) in
  let l := min (length normalized) (length fz) in
  match fst (tokenize (RawStr s) record (Some t) rt) with
  | Ok _ => w <= l /\ unpackable found normalized fz w = true
  | Raise e =>
      (e = IndexError /\ l < w /\ unpackable found normalized fz l = true)
      \/ (e = TypeError /\ unpackable found normalized fz (min w l) = false)
  end.
Proof.
  intros Hfz Hfound normalized w l.
  destruct (mapM_new_total found rt) as (objs & rt1 & Hobjs).
  pose proof (mapM_new_vals _ _ _ _ Hobjs) as Hvals.
  rewrite (tokenize_run _ _ _ _ _ _ _ _ Hfz Hfound Hobjs).
  assert (Hu0 : unpacked (by_form objs) normalized fz
                  (norm_i (entry (by_form objs))))
    by (intros j ? ? Hj; simpl in Hj; lia).
  pose proof (loop_outcome (Some t) (text_language t) normalized fz
                (Counter normalized) (length (self_tokens (self rt1)))
                (by_form objs) (display_stream s) [] (entry (by_form objs))
                rt1 (entry_inv _ _ _ _ _ _) (entry_ledger _ _ _ _) Hu0)
    as Hout.
  cbn [length norm_i entry Nat.add] in Hout. fold normalized in Hout.
  fold w in Hout.
  destruct (loop _ _ _ _ _ _ _ _ _ _) as [[st|e] rt2]; cbn [fst].
  - destruct Hout as (H1 & H2 & H3). split; [lia|].
    eapply unpackable_spec; eassumption.
  - destruct Hout as [(-> & Hlen & H)|(-> & j & n & f & Hj & Hn & Hs
                                        & Hfirst & Hf & Ha)].
    + left. split; [reflexivity|]. split; [lia|].
      eapply unpackable_spec; eassumption.
    + right. split; [reflexivity|].
      destruct (unpackable found normalized fz (min w l)) eqn:E;
        [exfalso|reflexivity].
      apply (unpackable_spec found objs) in E; [|exact Hvals].
      apply lookup_lt_Some in Hn as Hjn. apply lookup_lt_Some in Hf as Hjf.
      assert (Hjw : j < min w l) by lia.
      specialize (E j n f Hjw Hn Hs Hfirst Hf). congruence.
Qed.

(** With the text given, the collaborators answering, no more
    word-bearing display tokens than normalized entries and bundles, and
    no reserved key in a bundle, the call returns. *)
Lemma tokenize_returns s record t rt fz found :
  featurize (normalized_stream (RawStr s)) = Ok fz ->
  find "feature_sets" (text_language t) = Ok found ->
  word_bearing_count (display_stream s)
    <= length (normalized_stream (RawStr s)) ->
  word_bearing_count (display_stream s) <= length fz ->
  Forall (fun f => admissible f = true) fz ->
  exists r rt', tokenize (RawStr s) record (Some t) rt = (Ok r, rt').
Proof.
  intros Hfz Hfound Hn Hf Hadm.
  pose proof (tokenize_outcome s record t rt fz found Hfz Hfound) as Hout.
  cbv zeta in Hout.
  destruct (tokenize (RawStr s) record (Some t) rt) as [[r|e] rt'];
    [eauto|]. exfalso. cbn [fst] in Hout.
  destruct Hout as [(_ & Hlt & _)|(_ & Hun)]; [lia|].
  rewrite unpackable_admissible in Hun by assumption. discriminate.
Qed.

End CallOutcome.

(** ** Tokens, forms and feature sets of a call that returns *)

Section Outcome.
Context {U : UnicodeData} {F : Featurizer} {C : Connection}.

(** X5. A call that returns emits exactly one token per display token, in
    order and with the display string unchanged, so that the displays of
    the tokens joined together are the rewritten raw string; every token
    carries the text the call was given; and a token has a feature set
    and a frequency when its display string is word-bearing and neither
    of them otherwise. *)
Theorem tokenize_tokens_follow_display
    raw record text rt toks freqs news rt' :
  tokenize raw record text rt = (Ok (toks, freqs, news), rt') ->
  exists s,
    raw = RawStr s /\
    List.map tok_display toks = display_stream s /\
    concat (List.map tok_display toks) = display_text s /\
    Forall (fun t =>
              tok_text t = text /\
              match tok_feature_set t, tok_frequency t with
              | Some _, Some _ => word_bearing (tok_display t) = true
              | None, None => word_bearing (tok_display t) = false
              | _, _ => False
              end) toks.
Proof.
  intros H. apply tokenize_ledger in H
    as (s & t & fz & found & objs & st & -> & -> & _ & _ & _ & HI & _
        & -> & _ & _ & _).
  destruct HI as [Hdisp _ Htext _ _ _ Htoks _ _].
  exists s. split; [reflexivity|]. split; [exact Hdisp|]. split.
  - rewrite Hdisp. unfold display_stream, Re.split_groups.
    rewrite display_split_concat. reflexivity.
  - rewrite Forall_forall in Htext, Htoks. apply Forall_forall.
    intros tok Hin. split; [apply Htext, Hin|].
    specialize (Htoks tok Hin). unfold resolved in Htoks.
    destruct (tok_feature_set tok) as [fs|].
    + destruct Htoks as (Hw & _ & fq & -> & _). exact Hw.
    + destruct Htoks as (Hw & ->). exact Hw.
Qed.


End Outcome.

(** ** New and stored feature sets *)

Section Stored.
Context {U : UnicodeData} {F : Featurizer} {C : Connection}.

(** A feature set the call has built is referenced by one of its
    tokens. *)
Lemma new_entry_referenced text normalized fz frequencies base display
    seed language st fs :
  Inv text normalized fz frequencies base display st ->
  new_entry seed language normalized fz (feature_sets st) (norm_i st) fs ->
  exists tok, In tok (tokens st) /\ tok_feature_set tok = Some fs.
Proof.
  intros [_ _ _ _ _ Hforms Htoks _ _] (_ & Hc & _ & j & Hj & Hn & _).
  assert (Hin : fs_form (val fs) ∈ omap tok_form (tokens st)).
  { rewrite Hforms. apply (list_elem_of_lookup_2 _ j).
    rewrite lookup_take_lt by assumption. exact Hn. }
  apply list_elem_of_omap in Hin as (tok & Hin & Hform).
  exists tok. split; [apply list_elem_of_In, Hin|].
  rewrite Forall_forall in Htoks. specialize (Htoks tok Hin).
  unfold resolved in Htoks. unfold tok_form in Hform.
  destruct (tok_feature_set tok) as [fs'|]; [|discriminate].
  simpl in Hform. injection Hform as Hform.
  destruct Htoks as (_ & Hc' & _). rewrite Hform in Hc'. congruence.
Qed.


(** X8. The new feature sets of a call that returns: their forms are
    pairwise different; each has the language of the text; its form is
    the form of no entity the persisted lookup returned; its features are
    the bundle the featurizer gave at the first position of the form in
    the normalized stream; and each is referenced by a token of the
    call. *)
Theorem new_feature_sets_are_new
    raw record t rt toks freqs news rt' fz found :
  tokenize raw record (Some t) rt = (Ok (toks, freqs, news), rt') ->
  featurize (normalized_stream raw) = Ok fz ->
  find "feature_sets" (text_language t) = Ok found ->
  NoDup (List.map (fun fs => fs_form (val fs)) news) /\
  Forall (fun fs =>
            fs_language (val fs) = text_language t /\
            ~ In (fs_form (val fs)) (List.map fs_form found) /\
            (exists j,
               normalized_stream raw !! j = Some (fs_form (val fs)) /\
               fz !! j = Some (fs_features (val fs)) /\
               ~ In (fs_form (val fs)) (take j (normalized_stream raw))) /\
            (exists tok, In tok toks /\ tok_feature_set tok = Some fs))
    news.
Proof.
  intros H Hfz Hfound. apply tokenize_ledger in H
    as (s & t' & fz' & found' & objs & st & -> & [= <-] & Hfz' & Hfound'
        & Hvals & HI & [Hc _] & -> & _ & -> & _).
  rewrite Hfz in Hfz'. injection Hfz' as <-.
  rewrite Hfound in Hfound'. injection Hfound' as <-.
  destruct Hc as [_ _ Hnew Hforms _].
  split; [exact Hforms|].
  eapply Forall_impl; [exact Hnew|]. intros fs He.
  pose proof (new_entry_referenced _ _ _ _ _ _ _ _ _ _ HI He) as Href.
  destruct He as (Hs & _ & Hl & j & _ & Hn & Hf & Hfirst).
  split; [exact Hl|]. split; [|split; [eauto|exact Href]].
  apply by_form_None in Hs. rewrite <- Hvals, List.map_map. exact Hs.
Qed.

(** X9. The persisted lookup wins.  In a call that returns, a token
    whose form is the form of a stored entity references an object
    holding one of the stored entities and not a new feature set; a token
    whose form is stored nowhere references one of the new feature sets.
    So nothing new is built when every consumed form is stored. *)
Theorem stored_feature_set_wins
    raw record t rt toks freqs news rt' found :
  tokenize raw record (Some t) rt = (Ok (toks, freqs, news), rt') ->
  find "feature_sets" (text_language t) = Ok found ->
  Forall (fun tok => forall fs,
            tok_feature_set tok = Some fs ->
            (In (fs_form (val fs)) (List.map fs_form found) ->
             In (val fs) found /\ ~ In fs news) /\
            (~ In (fs_form (val fs)) (List.map fs_form found) ->
             In fs news)) toks /\
  (Forall (fun n => In n (List.map fs_form found)) (omap tok_form toks) ->
   news = []).
Proof.
  intros H Hfound. apply tokenize_ledger in H
    as (s & t' & fz & found' & objs & st & -> & [= <-] & _ & Hfound'
        & Hvals & HI & [Hc _] & -> & _ & -> & _).
  rewrite Hfound in Hfound'. injection Hfound' as <-.
  assert (Hstored : forall n,
    In n (List.map fs_form found) <-> by_form objs !! n <> None).
  { intros n. rewrite by_form_None, <- Hvals, List.map_map.
    destruct (decide (n ∈ List.map (fun x => fs_form (val x)) objs))
      as [Hd|Hd]; rewrite list_elem_of_In in Hd; tauto. }
  pose proof HI as [_ _ _ _ _ _ Htoks Hkeyed _].
  destruct Hc as [Hseed Hcache Hnew _ _].
  rewrite Forall_forall in Hnew.
  split.
  - rewrite Forall_forall in Htoks. apply Forall_forall.
    intros tok Hin fs Hfs. specialize (Htoks tok Hin).
    unfold resolved in Htoks. rewrite Hfs in Htoks.
    destruct Htoks as (_ & Hlook & _). split.
    + intros Hst. apply Hstored in Hst.
      destruct (by_form objs !! fs_form (val fs)) as [fs0|] eqn:E;
        [|congruence].
      assert (fs0 = fs) by (apply Hseed in E; congruence). subst fs0.
      split.
      * rewrite <- Hvals. apply in_map. eapply by_form_In. exact E.
      * intros Hn. apply list_elem_of_In in Hn.
        destruct (Hnew fs Hn) as (Hs & _). congruence.
    + intros Hst. destruct (Hcache _ _ Hlook) as [Hs|Hn]; [|exact Hn].
      exfalso. apply Hst, Hstored. congruence.
  - intros Hall. destruct (new_feature_sets st) as [|fs news] eqn:En;
      [reflexivity|]. exfalso.
    assert (He : new_entry (by_form objs) (text_language t)
                   (normalized_stream (RawStr s)) fz (feature_sets st)
                   (norm_i st) fs)
      by (apply Hnew, list_elem_of_In; left; reflexivity).
    destruct (new_entry_referenced _ _ _ _ _ _ _ _ _ _ HI He)
      as (tok & Hin & Hfs).
    destruct He as (Hs & _).
    rewrite Forall_forall in Hall.
    assert (Hform : fs_form (val fs) ∈ omap tok_form (tokens st)).
    { apply list_elem_of_omap. exists tok.
      split; [apply list_elem_of_In, Hin|].
      unfold tok_form. rewrite Hfs. reflexivity. }
    apply Hall, Hstored in Hform. congruence.
Qed.

End Stored.

(** ** The frequencies a call returns *)

Lemma occurrences_of_all_filter ks l :
  NoDup ks ->
  occurrences_of_all ks l =
  length (List.filter (fun m => bool_decide (m ∈ ks)) l).
Proof.
  induction ks as [|k ks IH]; intros Hnd.
  - unfold occurrences_of_all. cbn [foldr].
    induction l as [|x l IHl]; [reflexivity|]. cbn [List.filter].
    rewrite (bool_decide_eq_false_2 (x ∈ [])) by apply not_elem_of_nil.
    exact IHl.
  - apply NoDup_cons in Hnd as [Hk Hnd].
    change (occurrences_of_all (k :: ks) l)
      with (occurrences k l + occurrences_of_all ks l).
    rewrite (IH Hnd). unfold occurrences. clear IH.
    induction l as [|x l IHl]; [reflexivity|]. cbn [List.filter].
    destruct (decide (x = k)) as [->|Hx].
    + rewrite (bool_decide_eq_true_2 (k = k) eq_refl).
      rewrite (bool_decide_eq_false_2 (k ∈ ks)) by assumption.
      rewrite (bool_decide_eq_true_2 (k ∈ k :: ks)) by (apply elem_of_cons; auto).
      cbn [length]. rewrite <- IHl. lia.
    + rewrite (bool_decide_eq_false_2 (x = k)) by assumption.
      destruct (decide (x ∈ ks)) as [Hin|Hin].
      * rewrite (bool_decide_eq_true_2 (x ∈ ks)) by assumption.
        rewrite (bool_decide_eq_true_2 (x ∈ k :: ks))
          by (apply elem_of_cons; auto).
        cbn [length]. rewrite <- IHl. lia.
      * rewrite (bool_decide_eq_false_2 (x ∈ ks)) by assumption.
        rewrite (bool_decide_eq_false_2 (x ∈ k :: ks)).
        -- exact IHl.
        -- intros H. apply elem_of_cons in H as [H|H]; auto.
Qed.

Lemma total_count_keys (flist : list (str * obj Frequency)) l :
  (forall k fq, In (k, fq) flist ->
     freq_frequency (val fq) = Z.of_nat (occurrences k l)) ->
  total_count (List.map snd flist) =
  Z.of_nat (occurrences_of_all (List.map fst flist) l).
Proof.
  induction flist as [|[k fq] flist IH]; intros H; [reflexivity|].
  simpl. rewrite IH by (intros; apply H; right; assumption).
  rewrite (H k fq) by (left; reflexivity). lia.
Qed.

Lemma filter_all {A} (f : A -> bool) (l : list A) :
  (forall x, In x l -> f x = true) -> List.filter f l = l.
Proof.
  induction l as [|x l IH]; intros H; [reflexivity|]. simpl.
  rewrite (H x) by (left; reflexivity). f_equal.
  apply IH. intros y Hy. apply H. right. exact Hy.
Qed.

Section Frequencies2.
Context {U : UnicodeData} {F : Featurizer} {C : Connection}.

(** The entries of [frequency_list] of a call that returns: the key is
    the form of the frequency, and the count and the text are as line 163
    to 165 set them. *)
Lemma frequency_list_entries text normalized fz base display st seed language :
  Inv text normalized fz (Counter normalized) base display st ->
  Ledger seed language normalized fz st ->
  NoDup (List.map fst (frequency_list st)) /\
  forall k fq, In (k, fq) (frequency_list st) ->
    freq_form fq = k /\
    freq_text (val fq) = text /\
    freq_frequency (val fq) = Z.of_nat (occurrences k normalized).
Proof.
  intros [_ _ _ _ _ _ _ Hcache Hfreq] [_ Hkeys].
  assert (Hnd : NoDup (List.map fst (frequency_list st))).
  { rewrite Hkeys. apply first_occurrences_spec. }
  split; [exact Hnd|]. intros k fq Hin.
  apply (assoc_of_In _ _ _ Hnd) in Hin.
  destruct (Hfreq k fq Hin) as (Hcount & Htext & Hfs).
  split; [apply Hcache in Hfs; exact Hfs|]. split; [exact Htext|].
  rewrite Hcount. apply Counter_count.
Qed.

(** X10. A call that returns gives back one [Frequency] per form of its
    tokens, in the order in which the forms first occur among the tokens;
    each carries the text of the call. *)
Theorem frequencies_in_first_occurrence_order
    raw record text rt toks freqs news rt' :
  tokenize raw record text rt = (Ok (toks, freqs, news), rt') ->
  List.map freq_form freqs = first_occurrences (omap tok_form toks) /\
  NoDup (List.map freq_form freqs) /\
  Forall (fun fq => freq_text (val fq) = text) freqs.
Proof.
  intros H. apply tokenize_ledger in H
    as (s & t & fz & found & objs & st & -> & -> & _ & _ & _ & HI & Hled
        & -> & -> & _ & _).
  destruct (frequency_list_entries _ _ _ _ _ _ _ _ HI Hled) as [Hnd Hent].
  destruct HI as [_ _ _ _ _ Hforms _ _ _]. destruct Hled as [_ Hkeys].
  assert (Hmap : List.map freq_form (List.map snd (frequency_list st)) =
                 List.map fst (frequency_list st)).
  { rewrite List.map_map. apply List.map_ext_in. intros [k fq] Hin.
    simpl. apply Hent. exact Hin. }
  rewrite Hmap. split; [rewrite Hforms; exact Hkeys|].
  split; [exact Hnd|].
  apply Forall_forall. intros fq Hin.
  apply list_elem_of_In, in_map_iff in Hin as ([k fq'] & <- & Hin).
  apply (Hent k fq' Hin).
Qed.

(** X11. The counts of the frequencies a call returns add up to the
    number of entries of the normalized stream whose form is the form of
    some token.  When the word-bearing display tokens are as many as the
    normalized entries, that is the number of word-bearing tokens: every
    one of them is counted once. *)
Theorem frequencies_total raw record text rt toks freqs news rt' :
  tokenize raw record text rt = (Ok (toks, freqs, news), rt') ->
  let consumed := word_bearing_count (List.map tok_display toks) in
  total_count freqs =
    Z.of_nat (length (List.filter
                        (fun m => bool_decide (m ∈ omap tok_form toks))
                        (normalized_stream raw))) /\
  (consumed = length (normalized_stream raw) ->
   total_count freqs = Z.of_nat consumed).
Proof.
  intros H consumed. apply tokenize_ledger in H
    as (s & t & fz & found & objs & st & -> & -> & _ & _ & _ & HI & Hled
        & -> & -> & _ & _).
  destruct (frequency_list_entries _ _ _ _ _ _ _ _ HI Hled) as [Hnd Hent].
  destruct HI as [Hdisp _ _ Hcur _ Hforms _ _ _]. destruct Hled as [_ Hkeys].
  assert (Htotal : total_count (List.map snd (frequency_list st)) =
    Z.of_nat (length (List.filter
      (fun m => bool_decide (m ∈ omap tok_form (tokens st)))
      (normalized_stream (RawStr s))))).
  { rewrite (total_count_keys _ (normalized_stream (RawStr s)))
      by (intros k fq Hin; apply (Hent k fq Hin)).
    rewrite occurrences_of_all_filter by exact Hnd.
    do 2 f_equal. apply List.filter_ext. intros m.
    apply bool_decide_ext. rewrite Hkeys, Hforms, !list_elem_of_In.
    apply first_occurrences_spec. }
  split; [exact Htotal|].
  subst consumed. rewrite Hdisp, <- Hcur. intros Hall.
  rewrite Htotal, Hforms, Hall, firstn_all, filter_all; [reflexivity|].
  intros m Hm. apply bool_decide_eq_true_2, list_elem_of_In, Hm.
Qed.

End Frequencies2.

(** ** What a recording call leaves in the session *)

Lemma count_of_update a b k :
  count_of (counter_update a b) k = (count_of a k + count_of b k)%Z.
Proof.
  unfold count_of, counter_update. rewrite lookup_union_with.
  destruct (a !! k), (b !! k); simpl; lia.
Qed.

Section Recording.
Context {U : UnicodeData} {F : Featurizer} {C : Connection}.

(** X12. After a call that records, the token list of the session is
    the one before with the tokens of the call appended.  The feature-set
    cache of the session holds every feature set a token of the call
    references, under its form.  Under the form of every entity the
    persisted lookup returned, used by a token or not, it holds the
    entity line 128 keeps for that form: the last one the lookup returned
    with it, so of two stored entities with one form the earlier is not
    held.  The cache keeps a key it had, and it is unchanged under every
    form that is neither stored nor newly built. *)
Theorem recording_updates_session
    raw t rt toks freqs news rt' found :
  tokenize raw true (Some t) rt = (Ok (toks, freqs, news), rt') ->
  find "feature_sets" (text_language t) = Ok found ->
  let pre := self_feature_sets (self rt) in
  let post := self_feature_sets (self rt') in
  self_tokens (self rt') = self_tokens (self rt) ++ toks /\
  (forall tok fs, In tok toks -> tok_feature_set tok = Some fs ->
     post !! fs_form (val fs) = Some fs) /\
  (forall e, In e found ->
     exists fs,
       post !! fs_form e = Some fs /\
       kept found (fs_form e) = Some (val fs) /\
       In (val fs) found) /\
  (forall n, is_Some (pre !! n) -> is_Some (post !! n)) /\
  (forall n,
     ~ In n (List.map fs_form found) ->
     ~ In n (List.map (fun fs => fs_form (val fs)) news) ->
     post !! n = pre !! n).
Proof.
  intros H Hfound pre post. apply tokenize_ledger in H
    as (s & t' & fz & found' & objs & st & -> & [= <-] & _ & Hfound'
        & Hvals & HI & [Hc _] & -> & _ & -> & Hself).
  rewrite Hfound in Hfound'. injection Hfound' as <-.
  destruct HI as [_ _ _ _ _ _ Htoks Hkeyed _].
  destruct Hc as [Hseed Hcache _ _ _].
  assert (Hpost : post = feature_sets st ∪ pre)
    by (subst post; rewrite Hself; reflexivity).
  split; [rewrite Hself; reflexivity|]. rewrite Hpost. split; [|split; [|split]].
  - intros tok fs Hin Hfs. apply lookup_union_Some_l.
    rewrite Forall_forall in Htoks. apply list_elem_of_In in Hin.
    specialize (Htoks tok Hin). unfold resolved in Htoks.
    rewrite Hfs in Htoks. apply Htoks.
  - intros e He.
    destruct (by_form objs !! fs_form e) as [fs|] eqn:E.
    + exists fs. split; [apply lookup_union_Some_l, Hseed, E|].
      split; [rewrite <- Hvals; apply by_form_kept; exact E|].
      rewrite <- Hvals. apply in_map. eapply by_form_In. exact E.
    + exfalso. apply by_form_None in E. apply E.
      rewrite <- Hvals in He. apply in_map_iff in He as (o & <- & Ho).
      apply in_map_iff. exists o. auto.
  - intros n [fs Hn].
    destruct (feature_sets st !! n) as [fs'|] eqn:E.
    + exists fs'. apply lookup_union_Some_l, E.
    + exists fs. rewrite lookup_union_r by exact E. exact Hn.
  - intros n Hst Hnew. apply lookup_union_r.
    destruct (feature_sets st !! n) as [fs|] eqn:E; [|reflexivity].
    exfalso. destruct (Hcache n fs E) as [Hs|Hin].
    + apply Hst. rewrite <- Hvals, List.map_map.
      destruct (decide (n ∈ List.map (fun x => fs_form (val x)) objs))
        as [Hd|Hd]; rewrite list_elem_of_In in Hd; [exact Hd|].
      apply by_form_None in Hd. congruence.
    + apply Hnew, in_map_iff. exists fs. split; [|exact Hin].
      apply Hkeyed, E.
Qed.

(** X13. [clear] empties the session whatever it held and leaves the
    allocator alone.  A recording call that follows it numbers its tokens
    from 0, and leaves a session that holds exactly the tokens of the call
    and exactly the tally of its normalized stream. *)
Theorem clear_then_record raw text rt toks freqs news rt' :
  tokenize raw true text (snd (clear rt)) = (Ok (toks, freqs, news), rt') ->
  clear rt = (Ok tt, {| self := self fresh; next_oid := next_oid rt |}) /\
  List.map tok_index toks = seq 0 (length toks) /\
  self_tokens (self rt') = toks /\
  self_frequencies (self rt') = Counter (normalized_stream raw) /\
  (forall k, count_of (self_frequencies (self rt')) k =
             Z.of_nat (occurrences k (normalized_stream raw))).
Proof.
  intros H. split; [reflexivity|].
  apply tokenize_inv in H
    as (s & t & fz & st & -> & -> & _ & HI & -> & _ & _ & Hself).
  destruct HI as [Hdisp Hidx _ _ _ _ _ _ _]. simpl in Hidx, Hself.
  assert (Hlen : length (tokens st) = length (display_stream s))
    by (rewrite <- Hdisp, List.length_map; reflexivity).
  assert (Hfreq : self_frequencies (self rt') =
                  Counter (normalized_stream (RawStr s))).
  { rewrite Hself. simpl. apply map_eq. intros k.
    unfold counter_update. rewrite lookup_union_with, delete_empty, lookup_empty.
    destruct (Counter _ !! k); reflexivity. }
  split; [rewrite Hlen; exact Hidx|].
  split; [rewrite Hself; reflexivity|].
  split; [exact Hfreq|].
  intros k. rewrite Hfreq. apply Counter_count.
Qed.

(** X14. Recording adds up.  After two calls that record, one after the
    other, the session holds the tokens of both after those it had, and
    its count under every key is the count it had, an empty-string key
    apart, plus the occurrences of the key in the two normalized
    streams. *)
Theorem recordings_accumulate
    raw1 raw2 text1 text2 rt toks1 freqs1 news1 rt1 toks2 freqs2 news2 rt2 :
  tokenize raw1 true text1 rt = (Ok (toks1, freqs1, news1), rt1) ->
  tokenize raw2 true text2 rt1 = (Ok (toks2, freqs2, news2), rt2) ->
  self_tokens (self rt2) = self_tokens (self rt) ++ toks1 ++ toks2 /\
  forall k,
    count_of (self_frequencies (self rt2)) k =
    (count_of (delete [] (self_frequencies (self rt))) k
     + Z.of_nat (occurrences k (normalized_stream raw1)
                 + occurrences k (normalized_stream raw2)))%Z.
Proof.
  intros H1 H2.
  apply tokenize_inv in H1
    as (s1 & t1 & fz1 & st1 & -> & -> & _ & _ & _ & _ & _ & Hself1).
  apply tokenize_inv in H2
    as (s2 & t2 & fz2 & st2 & -> & -> & _ & _ & _ & _ & _ & Hself2).
  rewrite Hself2, Hself1. simpl. split; [symmetry; apply app_assoc|].
  intros k. rewrite count_of_update, !Counter_count.
  assert (Hdel : forall m : gmap str Z,
    count_of (delete [] (counter_update (delete [] m)
                (Counter (normalized_stream (RawStr s1))))) k =
    count_of (counter_update (delete [] m)
                (Counter (normalized_stream (RawStr s1)))) k).
  { intros m. destruct (decide (k = [])) as [->|Hk].
    - rewrite count_of_update, Counter_count.
      unfold normalized_stream at 2. rewrite occurrences_empty_truthy.
      unfold count_of. rewrite !lookup_delete_eq. reflexivity.
    - unfold count_of. rewrite (lookup_delete_ne _ [] k) by congruence.
      reflexivity. }
  rewrite Hdel, count_of_update, Counter_count. lia.
Qed.

End Recording.

(** ** When a call returns and when it raises *)

Section Outcomes.
Context {U : UnicodeData} {F : Featurizer} {C : Connection}.

(** X1. The exceptions of the lines before the loop come in source
    order, and each leaves the interpreter state as it was.  A list of
    strings raises [TypeError] at line 116, whatever the docstring
    promises and before the featurizer is asked; else an exception of the
    featurizer passes through (the [NotImplementedError] of the base
    class among them); else a missing text raises [AttributeError]; else
    an exception of the persisted lookup passes through. *)
Theorem tokenize_early_exceptions
    (raw : raw_text) (record : bool) (text : option Text) (rt : Runtime) :
  match raw with
  | RawList _ => tokenize raw record text rt = (Raise TypeError, rt)
  | RawStr _ =>
      match featurize (normalized_stream raw) with
      | Raise e => tokenize raw record text rt = (Raise e, rt)
      | Ok _ =>
          match text with
          | None => tokenize raw record text rt = (Raise AttributeError, rt)
          | Some t =>
              match find "feature_sets" (text_language t) with
              | Raise e => tokenize raw record text rt = (Raise e, rt)
              | Ok _ => True
              end
          end
      end
  end.
Proof.
  destruct raw as [s|l]; [|reflexivity].
  destruct (featurize (normalized_stream (RawStr s))) as [fz|e] eqn:Hfz.
  - destruct text as [t|].
    + destruct (find "feature_sets" (text_language t)) as [found|e] eqn:Hf;
        [exact I|].
      unfold tokenize. rewrite bind_run, ret_run, bind_run, Hfz.
      unfold lift at 1. rewrite bind_run. unfold attr_language at 1.
      rewrite ret_run, bind_run, Hf. reflexivity.
    + unfold tokenize. rewrite bind_run, ret_run, bind_run, Hfz.
      reflexivity.
  - unfold tokenize. rewrite bind_run, ret_run, bind_run, Hfz.
    reflexivity.
Qed.

(** X2. With a string, a text and both collaborators answering, the
    call has one of three outcomes, told apart by the streams alone.
    Write [w] for the number of word-bearing display tokens and [l] for
    the shorter of the two lengths, of the normalized stream and of the
    bundles.  The call returns exactly when [w] is at most [l] and no
    bundle that line 156 unpacks below [w] holds the key [form] or
    [language].  It raises the [TypeError] of line 156 exactly when such
    a bundle is unpacked below both [w] and [l].  It raises the
    [IndexError] of the out-of-range read of line 150 or 151 exactly when
    [l] is below [w] and no such bundle is unpacked below [l]: a
    featurizer that gives too few bundles fails the call in the same way
    as a short normalized stream. *)
Theorem tokenize_returns_iff s record t rt fz found :
  featurize (normalized_stream (RawStr s)) = Ok fz ->
  find "feature_sets" (text_language t) = Ok found ->
  let normalized := normalized_stream (RawStr s) in
  let w := word_bearing_count (display_stream s) in
  let l := min (length normalized) (length fz) in
  ((exists r rt', tokenize (RawStr s) record (Some t) rt = (Ok r, rt'))
   <-> w <= l /\ unpackable found normalized fz w = true) /\
  (fst (tokenize (RawStr s) record (Some t) rt) = Raise TypeError
   <-> unpackable found normalized fz (min w l) = false) /\
  (fst (tokenize (RawStr s) record (Some t) rt) = Raise IndexError
   <-> l < w /\ unpackable found normalized fz l = true).
Proof.
  intros Hfz Hfound normalized w l.
  pose proof (tokenize_outcome s record t rt fz found Hfz Hfound) as Hout.
  cbv zeta in Hout. fold normalized w l in Hout.
  assert (Hmin1 : w <= l -> min w l = w) by lia.
  assert (Hmin2 : l < w -> min w l = l) by lia.
  destruct (tokenize (RawStr s) record (Some t) rt) as [[r|e] rt'];
    cbn [fst] in *.
  - destruct Hout as (Hle & Hun). split; [|split].
    + split; [auto | eauto].
    + split; [discriminate|]. rewrite Hmin1, Hun by assumption.
      discriminate.
    + split; [discriminate|]. intros [Hlt _]. lia.
  - destruct Hout as [(-> & Hlt & Hun)|(-> & Hun)]; (split; [|split]).
    + split; [intros (r & rt'' & [=]) | intros [Hle _]; lia].
    + split; [discriminate|]. rewrite Hmin2, Hun by assumption.
      discriminate.
    + split; auto.
    + split; [intros (r & rt'' & [=])|].
      intros [Hle Hw]. rewrite Hmin1, Hw in Hun by assumption.
      discriminate.
    + split; auto.
    + split; [discriminate|]. intros [Hlt Hl].
      rewrite Hmin2, Hl in Hun by assumption. discriminate.
Qed.

(** X3. A call that raises, for whatever reason and with either value of
    [record], leaves the token list, the frequency counter and the
    feature-set cache of the session as they were: the session is
    written once, after the loop. *)
Theorem tokenize_raise_is_atomic raw record text rt e rt' :
  tokenize raw record text rt = (Raise e, rt') ->
  self_tokens (self rt') = self_tokens (self rt) /\
  self_frequencies (self rt') = self_frequencies (self rt) /\
  self_feature_sets (self rt') = self_feature_sets (self rt).
Proof.
  intros H. apply tokenize_raise_keeps_session in H. rewrite H. auto.
Qed.

End Outcomes.

(** ** The properties above on the runs of the small language *)

Lemma run_arma_eq :
  @tokenize ascii_tables lemma_featurizer (store stored_cano) (RawStr (py "arma arma cano")) true
    (Some latin) fresh
  = (Ok (tokens_of run_arma, frequencies_of run_arma,
         new_feature_sets_of run_arma), snd run_arma).
Proof. vm_compute. reflexivity. Qed.

Lemma run_digit_eq :
  @tokenize ascii_tables lemma_featurizer (store []) (RawStr (py "1 a a")) true (Some latin) fresh
  = (Ok (tokens_of run_digit, frequencies_of run_digit,
         new_feature_sets_of run_digit), snd run_digit).
Proof. vm_compute. reflexivity. Qed.

Lemma run_second_eq :
  @tokenize ascii_tables lemma_featurizer (store stored_cano) (RawStr (py "cano")) true (Some latin)
    (snd run_arma)
  = (Ok (tokens_of run_second, frequencies_of run_second,
         new_feature_sets_of run_second), snd run_second).
Proof. vm_compute. reflexivity. Qed.

Lemma run_cleared_eq :
  @tokenize ascii_tables lemma_featurizer (store stored_cano) (RawStr (py "arma arma cano")) true
    (Some latin) (snd (clear with_empty_key))
  = (Ok (tokens_of run_cleared, frequencies_of run_cleared,
         new_feature_sets_of run_cleared), snd run_cleared).
Proof. vm_compute. reflexivity. Qed.


Lemma tokenize_tokens_follow_display_witness :
  concat (List.map tok_display (tokens_of run_arma)) = py "arma arma cano".
Proof.
  destruct (@tokenize_tokens_follow_display ascii_tables lemma_featurizer
              (store stored_cano) _ _ _ _ _ _ _ _ run_arma_eq)
    as (s & Hs & _ & Hc & _).
  injection Hs as <-. rewrite Hc. vm_compute. reflexivity.
Defined.


Lemma new_feature_sets_are_new_witness :
  NoDup (List.map (fun fs => fs_form (val fs))
           (new_feature_sets_of run_arma)) /\
  List.map (fun fs => fs_form (val fs)) (new_feature_sets_of run_arma)
    = [py "arma"].
Proof.
  split; [|vm_compute; reflexivity].
  apply (@new_feature_sets_are_new ascii_tables lemma_featurizer
           (store stored_cano) _ _ _ _ _ _ _ _
           (bundles (RawStr (py "arma arma cano"))) stored_cano
           run_arma_eq); reflexivity.
Defined.

Lemma stored_feature_set_wins_witness :
  Forall (fun tok => forall fs,
            tok_feature_set tok = Some fs ->
            (In (fs_form (val fs)) (List.map fs_form stored_cano) ->
             In (val fs) stored_cano /\
             ~ In fs (new_feature_sets_of run_arma)) /\
            (~ In (fs_form (val fs)) (List.map fs_form stored_cano) ->
             In fs (new_feature_sets_of run_arma)))
    (tokens_of run_arma).
Proof.
  apply (@stored_feature_set_wins ascii_tables lemma_featurizer
           (store stored_cano) _ _ _ _ _ _ _ _ stored_cano run_arma_eq).
  reflexivity.
Defined.

Lemma frequencies_in_first_occurrence_order_witness :
  List.map freq_form (frequencies_of run_arma) = [py "arma"; py "cano"].
Proof.
  destruct (@frequencies_in_first_occurrence_order ascii_tables
              lemma_featurizer (store stored_cano) _ _ _ _ _ _ _ _
              run_arma_eq) as (Hf & _).
  rewrite Hf. vm_compute. reflexivity.
Defined.

Lemma frequencies_total_witness :
  total_count (frequencies_of run_arma) = 3%Z /\
  total_count (frequencies_of run_digit) = 3%Z.
Proof.
  split.
  - destruct (@frequencies_total ascii_tables lemma_featurizer
                (store stored_cano) _ _ _ _ _ _ _ _ run_arma_eq)
      as (_ & Hall).
    rewrite Hall; vm_compute; reflexivity.
  - destruct (@frequencies_total ascii_tables lemma_featurizer
                (store []) _ _ _ _ _ _ _ _ run_digit_eq) as (Hsum & _).
    rewrite Hsum. vm_compute. reflexivity.
Defined.

Lemma recording_updates_session_witness :
  self_tokens (self (snd run_arma))
    = self_tokens (self fresh) ++ tokens_of run_arma /\
  exists fs,
    self_feature_sets (self (snd run_arma)) !! py "cano" = Some fs /\
    kept stored_cano (py "cano") = Some (val fs) /\
    In (val fs) stored_cano.
Proof.
  destruct (@recording_updates_session ascii_tables lemma_featurizer
              (store stored_cano) _ _ _ _ _ _ _ stored_cano run_arma_eq
              eq_refl) as (Ht & _ & Hst & _).
  split; [exact Ht|].
  apply (Hst (val cano_cached)). left. reflexivity.
Defined.

Lemma clear_then_record_witness :
  self_tokens (self (snd run_cleared)) = tokens_of run_cleared /\
  self_frequencies (self (snd run_cleared))
    = {[ py "arma" := 2%Z; py "cano" := 1%Z ]}.
Proof.
  destruct (@clear_then_record ascii_tables lemma_featurizer
              (store stored_cano) _ _ _ _ _ _ _ run_cleared_eq)
    as (_ & _ & Ht & Hf & _).
  split; [exact Ht|]. rewrite Hf. vm_compute. reflexivity.
Defined.

Lemma recordings_accumulate_witness :
  count_of (self_frequencies (self (snd run_second))) (py "cano") = 2%Z /\
  length (self_tokens (self (snd run_second))) = 6.
Proof.
  destruct (@recordings_accumulate ascii_tables lemma_featurizer
              (store stored_cano) _ _ _ _ _ _ _ _ _ _ _ _ _
              run_arma_eq run_second_eq) as (Ht & Hc).
  split; [rewrite Hc; vm_compute; reflexivity|].
  rewrite Ht. vm_compute. reflexivity.
Defined.

Lemma tokenize_returns_iff_witness :
  fst (@tokenize ascii_tables lemma_featurizer (store [])
         (RawStr (py "a_b")) true (Some latin) fresh)
    = Raise IndexError /\
  fst (@tokenize ascii_tables form_featurizer (store [])
         (RawStr (py "a_b")) true (Some latin) fresh)
    = Raise TypeError /\
  exists r rt',
    @tokenize ascii_tables form_featurizer (store stored_cano)
      (RawStr (py "cano")) true (Some latin) fresh = (Ok r, rt').
Proof.
  split; [|split].
  - apply (@tokenize_returns_iff ascii_tables lemma_featurizer (store [])
             (py "a_b") true latin fresh (bundles (RawStr (py "a_b"))) []).
    + vm_compute. reflexivity.
    + vm_compute. reflexivity.
    + vm_compute. split; [lia | reflexivity].
  - apply (@tokenize_returns_iff ascii_tables form_featurizer (store [])
             (py "a_b") true latin fresh [[("form"%string, py "a_b")]] []).
    + vm_compute. reflexivity.
    + vm_compute. reflexivity.
    + vm_compute. reflexivity.
  - apply (@tokenize_returns_iff ascii_tables form_featurizer
             (store stored_cano) (py "cano") true latin fresh
             [[("form"%string, py "cano")]] stored_cano).
    + vm_compute. reflexivity.
    + vm_compute. reflexivity.
    + vm_compute. split; [lia | reflexivity].
Defined.

Lemma tokenize_raise_is_atomic_witness :
  self_tokens (self (snd run_fault)) = [] /\
  self_frequencies (self (snd run_fault)) = {[ [] := 3%Z ]} /\
  self_feature_sets (self (snd run_fault)) = ∅.
Proof.
  apply (@tokenize_raise_is_atomic ascii_tables lemma_featurizer (store [])
           (RawStr (py "a_b")) true (Some latin) with_empty_key
           IndexError (snd run_fault)).
  vm_compute. reflexivity.
Defined.

(** ** Plain text keeps the two streams aligned *)

Lemma ascii_tables_agree : AsciiAgree ascii_tables.
Proof. constructor; reflexivity. Qed.

Lemma plain_cases c :
  plain c = true ->
  (c < 128)%N /\ c <> 47%N /\ c <> 46%N /\ c <> 60%N /\ c <> 10%N /\
  (word_characters c = true \/
   (word_characters c = false /\ ascii_isalnum c = false /\ c <> 95%N)).
Proof.
  unfold plain. intros H. apply orb_true_iff in H as [H|H].
  - pose proof H as Hw. unfold word_characters in H.
    rewrite orb_true_iff, !andb_true_iff, !N.leb_le in H.
    repeat split; try lia. left. exact Hw.
  - rewrite !andb_true_iff, !negb_true_iff, N.ltb_lt, !N.eqb_neq in H.
    destruct H as ((((((H1 & H2) & H3) & H4) & H5) & H6) & H7).
    repeat split; try assumption. right.
    split; [|split; assumption].
    unfold ascii_isalnum in H2. unfold word_characters.
    destruct ((97 <=? c)%N && (c <=? 122)%N),
      ((65 <=? c)%N && (c <=? 90)%N); simpl in *;
      rewrite ?orb_true_r in H2; try discriminate; reflexivity.
Qed.

Lemma plain_lower c : plain c = true -> plain (ascii_lower_char c) = true.
Proof.
  intros H. unfold ascii_lower_char.
  destruct ((65 <=? c)%N && (c <=? 90)%N) eqn:E; [|exact H].
  apply andb_true_iff in E as [E1 E2].
  apply N.leb_le in E1, E2. unfold plain, word_characters.
  replace (97 <=? c + 32)%N with true by (symmetry; apply N.leb_le; lia).
  replace (c + 32 <=? 122)%N with true by (symmetry; apply N.leb_le; lia).
  reflexivity.
Qed.

Lemma lower_word_character c :
  word_characters c = true -> word_characters (ascii_lower_char c) = true.
Proof.
  intros H. unfold ascii_lower_char.
  destruct ((65 <=? c)%N && (c <=? 90)%N) eqn:E; [|exact H].
  apply andb_true_iff in E as [E1 E2].
  apply N.leb_le in E1, E2. unfold word_characters.
  replace (97 <=? c + 32)%N with true by (symmetry; apply N.leb_le; lia).
  replace (c + 32 <=? 122)%N with true by (symmetry; apply N.leb_le; lia).
  reflexivity.
Qed.

Lemma lower_delimiter c :
  word_characters c = false -> ascii_lower_char c = c.
Proof.
  unfold ascii_lower_char, word_characters. intros H.
  destruct ((65 <=? c)%N && (c <=? 90)%N); [|reflexivity].
  rewrite orb_true_r in H. discriminate.
Qed.

(** No literal of the patterns occurs in plain text. *)
Lemma plain_no_literal (l s : str) n :
  (In 47%N l \/ In 46%N l) ->
  Forall (fun c => plain c = true) s ->
  Re.match_len (Re.lit l) s = Some n -> False.
Proof.
  intros Hl Hs H. apply match_len_lit in H as [_ Ht].
  assert (Hin : forall c, In c l -> plain c = true).
  { intros c Hc. rewrite <- Ht in Hc.
    rewrite Forall_forall in Hs. apply Hs.
    apply list_elem_of_In in Hc. eapply subseteq_take. exact Hc. }
  destruct Hl as [Hl|Hl]; apply Hin, plain_cases in Hl; tauto.
Qed.

Lemma match_len_alt r1 r2 s :
  Re.match_len (Re.Alt r1 r2) s =
  match Re.match_len r1 s with
  | Some n => Some n
  | None => Re.match_len r2 s
  end.
Proof. reflexivity. Qed.

Lemma plain_no_literal_at (l s : str) :
  (In 47%N l \/ In 46%N l) ->
  Forall (fun c => plain c = true) s ->
  Re.match_len (Re.lit l) s = None.
Proof.
  intros Hl Hs. destruct (Re.match_len (Re.lit l) s) as [n|] eqn:E;
    [|reflexivity].
  exfalso. eapply plain_no_literal; eassumption.
Qed.

Lemma match_len_annotation `{U : UnicodeData} c s :
  c <> 60%N -> Re.match_len annotation (c :: s) = None.
Proof.
  intros Hc. unfold Re.match_len, annotation. cbn [Re.run].
  destruct (N.eqb_spec 60 c); [congruence | reflexivity].
Qed.

Lemma member_diacriticals_ascii c :
  (c < 128)%N -> member c diacriticals = false.
Proof.
  intros Hc. unfold member, diacriticals. simpl.
  repeat match goal with
         | |- context [N.eqb c ?d] =>
             replace (N.eqb c d) with false
               by (symmetry; apply N.eqb_neq; lia)
         end.
  reflexivity.
Qed.

Lemma word_characters_alnum c :
  word_characters c = true -> ascii_isalnum c = true.
Proof.
  unfold word_characters, ascii_isalnum.
  destruct ((97 <=? c)%N && (c <=? 122)%N), ((65 <=? c)%N && (c <=? 90)%N);
    simpl; intros H; try discriminate;
    rewrite ?orb_true_r; simpl; rewrite ?orb_true_r; reflexivity.
Qed.

Section PlainText.
Context {U : UnicodeData} {A : AsciiAgree U}.

(** On plain text the normalized split finds a delimiter of one character
    at every character that is no word character, and nothing else. *)
Lemma split_pattern_plain c s :
  plain c = true -> Forall (fun c => plain c = true) s ->
  Re.match_len split_pattern (c :: s) =
  if word_characters c then None else Some 1.
Proof.
  intros Hc Hs.
  assert (Hall : Forall (fun c => plain c = true) (c :: s))
    by (constructor; assumption).
  destruct (plain_cases c Hc) as (H128 & _ & _ & H60 & _ & Hkind).
  unfold split_pattern. rewrite !match_len_alt.
  rewrite match_len_annotation by assumption.
  rewrite !plain_no_literal_at
    by (first [assumption | simpl; tauto]).
  rewrite match_len_cls. unfold word_class.
  rewrite (isalnum_ascii c H128), (member_diacriticals_ascii c H128).
  destruct Hkind as [Hw|(Hw & Hal & H95)]; rewrite Hw.
  - rewrite (word_characters_alnum c Hw). reflexivity.
  - rewrite Hal. destruct (N.eqb_spec c 95); [congruence | reflexivity].
Qed.

(** So does the display split. *)
Lemma display_pattern_plain c s :
  plain c = true -> Forall (fun c => plain c = true) s ->
  Re.first_group display_pattern (c :: s) =
  if word_characters c then None else Some (1, 1).
Proof.
  intros Hc Hs.
  assert (Hall : Forall (fun c => plain c = true) (c :: s))
    by (constructor; assumption).
  unfold display_pattern. cbn [Re.first_group].
  rewrite plain_no_literal_at by (first [assumption | simpl; tauto]).
  rewrite match_len_cls. destruct (word_characters c); reflexivity.
Qed.

(** The substitutions of lines 116 and 117 leave plain text alone. *)
Lemma display_text_plain s :
  Forall (fun c => plain c = true) s -> display_text s = s.
Proof.
  intros Hs. unfold display_text, Re.sub.
  assert (H1 : Re.sub_from annotation [] s 0 = s).
  { induction Hs as [|c s Hc Hs IH]; [reflexivity|].
    cbn [Re.sub_from]. destruct (plain_cases c Hc) as (_ & _ & _ & H60 & _).
    rewrite match_len_annotation by assumption. f_equal. exact IH. }
  rewrite H1.
  induction Hs as [|c s Hc Hs IH]; [reflexivity|].
  cbn [Re.sub_from]. destruct (plain_cases c Hc) as (_ & _ & _ & _ & H10 & _).
  rewrite match_len_cls.
  destruct (N.eqb_spec 10 c); [congruence|]. f_equal. apply IH.
  clear IH H1. induction Hs as [|d s Hd Hs IH]; [reflexivity|].
  cbn [Re.sub_from]. destruct (plain_cases d Hd) as (_ & _ & _ & H60 & _).
  rewrite match_len_annotation by assumption. f_equal. exact IH.
Qed.

Lemma plain_streams s : forall piece,
  Forall (fun c => plain c = true) s ->
  Forall (fun c => word_characters c = true) piece ->
  List.filter truthy
    (Re.split_from split_pattern (List.map ascii_lower_char s) 0
       (List.map ascii_lower_char piece)) =
  List.map (List.map ascii_lower_char)
    (List.filter word_bearing
       (truthy_items (Re.split_groups_from display_pattern s 0 piece))).
Proof.
  induction s as [|c s IH]; intros piece Hs Hp.
  - cbn [List.map Re.split_from Re.split_groups_from].
    destruct piece as [|p0 piece]; [reflexivity|].
    cbn [truthy_items omap List.filter List.map truthy].
    simpl. rewrite word_bearing_letters by (inversion Hp; assumption).
    reflexivity.
  - inversion Hs as [|? ? Hc Hs']; subst.
    cbn [List.map Re.split_from Re.split_groups_from].
    rewrite split_pattern_plain;
      [| apply plain_lower; assumption
       | apply Forall_forall; intros x Hx;
         apply list_elem_of_In, in_map_iff in Hx as (y & <- & Hy);
         apply plain_lower; rewrite Forall_forall in Hs';
         apply Hs', list_elem_of_In, Hy ].
    rewrite display_pattern_plain by assumption.
    destruct (word_characters c) eqn:Hw.
    + rewrite (lower_word_character c Hw).
      rewrite <- (IH (piece ++ [c])); [|assumption|].
      * rewrite List.map_app. reflexivity.
      * apply Forall_app. split; [assumption|].
        constructor; [assumption | constructor].
    + rewrite (lower_delimiter c Hw), Hw.
      rewrite truthy_items_cons, truthy_items_app.
      change (take 1 (c :: s)) with [c].
      rewrite truthy_items_groups by lia.
      specialize (IH [] Hs' ltac:(constructor)).
      cbn [List.map] in IH.
      destruct piece as [|p0 piece].
      * cbn [List.map List.filter truthy app].
        rewrite word_bearing_single by assumption. exact IH.
      * cbn [List.map List.filter truthy app].
        rewrite word_bearing_letters by (inversion Hp; assumption).
        rewrite word_bearing_single by assumption.
        cbn [List.map]. f_equal. exact IH.
Qed.

Lemma plain_ascii s :
  Forall (fun c => plain c = true) s -> Forall (fun c => (c < 128)%N) s.
Proof.
  intros Hs. eapply Forall_impl; [exact Hs|]. simpl.
  intros c Hc. apply plain_cases in Hc. tauto.
Qed.

Lemma plain_streams_eq s :
  Forall (fun c => plain c = true) s ->
  normalized_stream (RawStr s) =
  List.map (List.map ascii_lower_char)
    (List.filter word_bearing (display_stream s)).
Proof.
  intros Hs. unfold normalized_stream, normalize, display_stream.
  fold (display_text s). rewrite (display_text_plain s Hs).
  rewrite (nfkd_ascii s), (lower_ascii s) by (apply plain_ascii; exact Hs).
  apply (plain_streams s []); [exact Hs | constructor].
Qed.

(** X16. On plain text, that is letters and ASCII delimiters other than
    [/], [.], [<], the newline, digits and the underscore, the two splits
    agree: the normalized stream is the list of the word-bearing display
    tokens in lower case, so the streams have the same length. *)
Theorem plain_text_streams_agree (s : str) :
  Forall (fun c => plain c = true) s ->
  normalized_stream (RawStr s) =
    List.map (List.map ascii_lower_char)
      (List.filter word_bearing (display_stream s)) /\
  length (normalized_stream (RawStr s))
    = word_bearing_count (display_stream s).
Proof.
  intros Hs. rewrite (plain_streams_eq s Hs).
  split; [reflexivity|]. apply List.length_map.
Qed.

End PlainText.

Lemma forms_per_token (g : str -> str) (st : Locals) (toks : list Token) :
  Forall (resolved st) toks ->
  omap tok_form toks =
    List.map g (List.filter word_bearing (List.map tok_display toks)) ->
  Forall (fun tok => word_bearing (tok_display tok) = true ->
                     tok_form tok = Some (g (tok_display tok))) toks.
Proof.
  induction toks as [|tok toks IH]; intros Hres Heq; [constructor|].
  inversion Hres as [|? ? Hr Hres']; subst.
  unfold resolved in Hr. cbn [omap list_omap List.map List.filter] in Heq.
  unfold tok_form at 1 in Heq.
  destruct (tok_feature_set tok) as [fs|] eqn:Efs.
  - destruct Hr as (Hw & _). rewrite Hw in Heq. simpl in Heq.
    injection Heq as Hform Heq.
    constructor; [|apply IH; assumption].
    intros _. unfold tok_form. rewrite Efs. simpl. f_equal. exact Hform.
  - destruct Hr as (Hw & _). rewrite Hw in Heq. simpl in Heq.
    constructor; [|apply IH; assumption].
    intros Hw'. congruence.
Qed.

Section PlainTokens.
Context {U : UnicodeData} {A : AsciiAgree U} {F : Featurizer}
  {C : Connection}.

(** X17. Plain text tokenizes.  With a text, a featurizer that gives one
    bundle per normalized token, none of them holding the key [form] or
    [language], and a persisted lookup that answers, the call on plain
    text returns; it consumes the whole normalized stream; and the form
    of every word-bearing token is its own display string in lower
    case. *)
Theorem plain_text_tokenizes s record t rt fz found :
  Forall (fun c => plain c = true) s ->
  featurize (normalized_stream (RawStr s)) = Ok fz ->
  length fz = length (normalized_stream (RawStr s)) ->
  Forall (fun f => admissible f = true) fz ->
  find "feature_sets" (text_language t) = Ok found ->
  exists toks freqs news rt',
    tokenize (RawStr s) record (Some t) rt = (Ok (toks, freqs, news), rt') /\
    omap tok_form toks = normalized_stream (RawStr s) /\
    Forall (fun tok =>
              word_bearing (tok_display tok) = true ->
              tok_form tok =
                Some (List.map ascii_lower_char (tok_display tok))) toks.
Proof.
  intros Hs Hfz Hlen Hadm Hfound.
  pose proof (plain_streams_eq s Hs) as Heq.
  assert (Hw : word_bearing_count (display_stream s)
               = length (normalized_stream (RawStr s))).
  { rewrite Heq, List.length_map. reflexivity. }
  destruct (tokenize_returns s record t rt fz found Hfz Hfound)
    as ([[toks freqs] news] & rt' & H); [lia | lia | exact Hadm |].
  exists toks, freqs, news, rt'. split; [exact H|].
  apply tokenize_inv in H
    as (s' & t' & fz' & st & [= <-] & _ & _ & HI & -> & _).
  destruct HI as [Hdisp _ _ Hcur _ Hforms Htoks _ _].
  assert (Hall : omap tok_form (tokens st) = normalized_stream (RawStr s)).
  { rewrite Hforms, Hcur, Hw. apply firstn_all. }
  split; [exact Hall|].
  apply (forms_per_token _ st); [exact Htoks|].
  rewrite Hall, Hdisp. exact Heq.
Qed.

End PlainTokens.

Lemma plain_check s : forallb plain s = true ->
  Forall (fun c => plain c = true) s.
Proof.
  intros H. apply Forall_forall. intros c Hc.
  rewrite forallb_forall in H. apply H, list_elem_of_In, Hc.
Qed.

Lemma plain_text_streams_agree_witness :
  @normalized_stream ascii_tables (RawStr (py "Arma virumque, cano!"))
    = [py "arma"; py "virumque"; py "cano"] /\
  length (@normalized_stream ascii_tables
            (RawStr (py "Arma virumque, cano!")))
    = word_bearing_count
        (@display_stream ascii_tables (py "Arma virumque, cano!")).
Proof.
  destruct (@plain_text_streams_agree ascii_tables ascii_tables_agree
              (py "Arma virumque, cano!")) as (Heq & Hlen).
  - apply plain_check. vm_compute. reflexivity.
  - split; [rewrite Heq; vm_compute; reflexivity | exact Hlen].
Defined.

Lemma plain_text_tokenizes_witness :
  exists toks freqs news rt',
    @tokenize ascii_tables lemma_featurizer (store stored_cano)
      (RawStr (py "Arma virumque, cano!")) false (Some latin) fresh
      = (Ok (toks, freqs, news), rt') /\
    omap tok_form toks
      = @normalized_stream ascii_tables
          (RawStr (py "Arma virumque, cano!")) /\
    Forall (fun tok =>
              word_bearing (tok_display tok) = true ->
              tok_form tok =
                Some (List.map ascii_lower_char (tok_display tok))) toks.
Proof.
  apply (@plain_text_tokenizes ascii_tables ascii_tables_agree
           lemma_featurizer (store stored_cano)
           (py "Arma virumque, cano!") false latin fresh
           (bundles (RawStr (py "Arma virumque, cano!"))) stored_cano).
  - apply plain_check. vm_compute. reflexivity.
  - vm_compute. reflexivity.
  - vm_compute. reflexivity.
  - vm_compute. repeat constructor.
  - vm_compute. reflexivity.
Defined.

(** ** Line breaks *)


